(** * pwru: the orchestration in [main.go]

    A shallow embedding of [func main] of the packet tracer: flag
    defaults, start-up, the kprobe attach loop with its deferred
    [kp.Close()] calls, and the perf-event consume loop.

    The process is modelled by explicit state passing over a [world]
    that holds the chronological trace of the calls made so far and the
    stack of deferred calls of [main].  Everything the program obtains
    from outside (results of system and library calls, the order in
    which [range] visits the function map, the moment the signal context
    is cancelled, the records the perf reader hands out) is a field of
    the environment [Env]; theorems quantify over it. *)

From Stdlib Require Import List ZArith String Bool Lia Arith PeanoNat.
From Stdlib Require Import FunInd.
Import ListNotations.

Local Open Scope Z_scope.

(** ** Go's [int] (64 bits on the supported platforms) *)

Definition int_min : Z := - 2 ^ 63.
Definition int_max : Z := 2 ^ 63 - 1.

Definition int_wrap (z : Z) : Z := (z + 2 ^ 63) mod 2 ^ 64 - 2 ^ 63.

(** [ignored += 1] *)
Definition int_add (a b : Z) : Z := int_wrap (a + b).

(** ** Errors and [errors.Is] *)

Inductive sentinel : Type :=
| os_ErrNotExist
| perf_errClosed.

(** An error is a sentinel, a fresh error, or an error wrapping another
    one ([fmt.Errorf] with [%w]). *)
Inductive error : Type :=
| ErrSentinel (s : sentinel)
| ErrNew (msg : string)
| ErrWrap (msg : string) (inner : error).

Definition sentinel_eqb (a b : sentinel) : bool :=
  match a, b with
  | os_ErrNotExist, os_ErrNotExist => true
  | perf_errClosed, perf_errClosed => true
  | _, _ => false
  end.

(** [errors.Is(err, target)] for a sentinel target: walk the chain of
    wrapped errors. *)
Fixpoint errors_Is (err : error) (target : sentinel) : bool :=
  match err with
  | ErrSentinel s => sentinel_eqb s target
  | ErrNew _ => false
  | ErrWrap _ inner => errors_Is inner target
  end.

(** [perf.IsClosed(err)] *)
Definition perf_IsClosed (err : error) : bool := errors_Is err perf_errClosed.

(** ** Flags (lines 41-53) *)

Record Flags : Type := mkFlags {
  FilterMark : Z;
  FilterProto : string;
  FilterSrcIP : string;
  FilterDstIP : string;
  FilterSrcPort : string;
  FilterDstPort : string;
  OutputRelativeTS : bool;
  OutputMeta : bool;
  OutputTuple : bool;
  OutputSkb : bool
}.

(** The defaults given to [flag.Int], [flag.String] and [flag.Bool]. *)
Definition default_flags : Flags :=
  {| FilterMark := 0;
     FilterProto := EmptyString;
     FilterSrcIP := EmptyString;
     FilterDstIP := EmptyString;
     FilterSrcPort := EmptyString;
     FilterDstPort := EmptyString;
     OutputRelativeTS := false;
     OutputMeta := false;
     OutputTuple := false;
     OutputSkb := false |}.

(** One flag given on the command line, already converted by the [flag]
    package to the flag's type. *)
Inductive flag_arg : Type :=
| filter_mark (v : Z)
| filter_proto (v : string)
| filter_src_ip (v : string)
| filter_dst_ip (v : string)
| filter_src_port (v : string)
| filter_dst_port (v : string)
| output_relative_timestamp (v : bool)
| output_meta (v : bool)
| output_tuple (v : bool)
| output_skb (v : bool).

(** [flag.Parse] stores each given value through the flag's pointer. *)
Definition set_flag (f : Flags) (a : flag_arg) : Flags :=
  match a with
  | filter_mark v =>
      mkFlags v (FilterProto f) (FilterSrcIP f) (FilterDstIP f)
        (FilterSrcPort f) (FilterDstPort f) (OutputRelativeTS f)
        (OutputMeta f) (OutputTuple f) (OutputSkb f)
  | filter_proto v =>
      mkFlags (FilterMark f) v (FilterSrcIP f) (FilterDstIP f)
        (FilterSrcPort f) (FilterDstPort f) (OutputRelativeTS f)
        (OutputMeta f) (OutputTuple f) (OutputSkb f)
  | filter_src_ip v =>
      mkFlags (FilterMark f) (FilterProto f) v (FilterDstIP f)
        (FilterSrcPort f) (FilterDstPort f) (OutputRelativeTS f)
        (OutputMeta f) (OutputTuple f) (OutputSkb f)
  | filter_dst_ip v =>
      mkFlags (FilterMark f) (FilterProto f) (FilterSrcIP f) v
        (FilterSrcPort f) (FilterDstPort f) (OutputRelativeTS f)
        (OutputMeta f) (OutputTuple f) (OutputSkb f)
  | filter_src_port v =>
      mkFlags (FilterMark f) (FilterProto f) (FilterSrcIP f) (FilterDstIP f)
        v (FilterDstPort f) (OutputRelativeTS f)
        (OutputMeta f) (OutputTuple f) (OutputSkb f)
  | filter_dst_port v =>
      mkFlags (FilterMark f) (FilterProto f) (FilterSrcIP f) (FilterDstIP f)
        (FilterSrcPort f) v (OutputRelativeTS f)
        (OutputMeta f) (OutputTuple f) (OutputSkb f)
  | output_relative_timestamp v =>
      mkFlags (FilterMark f) (FilterProto f) (FilterSrcIP f) (FilterDstIP f)
        (FilterSrcPort f) (FilterDstPort f) v
        (OutputMeta f) (OutputTuple f) (OutputSkb f)
  | output_meta v =>
      mkFlags (FilterMark f) (FilterProto f) (FilterSrcIP f) (FilterDstIP f)
        (FilterSrcPort f) (FilterDstPort f) (OutputRelativeTS f)
        v (OutputTuple f) (OutputSkb f)
  | output_tuple v =>
      mkFlags (FilterMark f) (FilterProto f) (FilterSrcIP f) (FilterDstIP f)
        (FilterSrcPort f) (FilterDstPort f) (OutputRelativeTS f)
        (OutputMeta f) v (OutputSkb f)
  | output_skb v =>
      mkFlags (FilterMark f) (FilterProto f) (FilterSrcIP f) (FilterDstIP f)
        (FilterSrcPort f) (FilterDstPort f) (OutputRelativeTS f)
        (OutputMeta f) (OutputTuple f) v
  end.

Definition flag_Parse (argv : list flag_arg) : Flags :=
  fold_left set_flag argv default_flags.

(** The six filter flags. *)
Inductive filter_flag : Type :=
| FFMark | FFProto | FFSrcIP | FFDstIP | FFSrcPort | FFDstPort.

(** Whether a command-line item sets the given filter flag. *)
Definition sets_filter (k : filter_flag) (a : flag_arg) : bool :=
  match k, a with
  | FFMark, filter_mark _ => true
  | FFProto, filter_proto _ => true
  | FFSrcIP, filter_src_ip _ => true
  | FFDstIP, filter_dst_ip _ => true
  | FFSrcPort, filter_src_port _ => true
  | FFDstPort, filter_dst_port _ => true
  | _, _ => false
  end.

(** The value of a filter flag as [ConfigBPFMap] receives it: the mark
    as a number, the others as text. *)
Definition filter_value (k : filter_flag) (f : Flags) : Z + string :=
  match k with
  | FFMark => inl (FilterMark f)
  | FFProto => inr (FilterProto f)
  | FFSrcIP => inr (FilterSrcIP f)
  | FFDstIP => inr (FilterDstIP f)
  | FFSrcPort => inr (FilterSrcPort f)
  | FFDstPort => inr (FilterDstPort f)
  end.

(** ** Probe programs and the switch on the argument position *)

(** The five loaded programs [kprobe1] .. [kprobe5]. *)
Inductive Program : Type :=
| kprobe1 | kprobe2 | kprobe3 | kprobe4 | kprobe5.

(** Lines 119-134: [fn := kprobe1] followed by [switch pos]; [None] is
    the [default] case, which never reaches [link.Kprobe]. *)
Definition select_fn (pos : Z) : option Program :=
  if pos =? 1 then Some kprobe1
  else if pos =? 2 then Some kprobe2
  else if pos =? 3 then Some kprobe3
  else if pos =? 4 then Some kprobe4
  else if pos =? 5 then Some kprobe5
  else None.

(** ** Records of the perf reader and decoded events *)

(** [perf.Record]: [LostSamples] is a [uint64]. *)
Record perf_Record : Type := mkRecord {
  LostSamples : Z;
  RawSample : list Byte.byte
}.

(** [pwru.Event] is declared outside [main.go]; only its encoded size
    matters here.  A decoded event is represented by the bytes
    [binary.Read] consumed for it. *)
Definition Event : Type := list Byte.byte.

Definition io_EOF : error := ErrNew "EOF".
Definition io_ErrUnexpectedEOF : error := ErrNew "unexpected EOF".

(** [binary.Read(bytes.NewBuffer(raw), binary.LittleEndian, &event)] for
    a fixed-size struct of [event_size] bytes: [io.ReadFull] takes
    exactly [event_size] bytes from the buffer and ignores what follows;
    it fails when the buffer holds fewer. *)
Definition binary_Read (event_size : nat) (raw : list Byte.byte)
  : Event + error :=
  if (List.length raw <? event_size)%nat then
    inr (match raw with
         | [] => io_EOF
         | _ :: _ => io_ErrUnexpectedEOF
         end)
  else inl (firstn event_size raw).

(** ** The observable calls of [main] *)

Inductive fatal_msg : Type :=
| FatalRlimitNofile (err : error)
| FatalRlimitMemlock (err : error)
| FatalGetFuncs (err : error)
| FatalGetAddrs (err : error)
| FatalLoadObjects (err : error)
| FatalKprobe (name : string) (err : error)
| FatalNewReader (err : error).

Inductive log_msg : Type :=
| LogAttaching
| LogListening
| LogReadErr (err : error)
| LogDropped (n : Z)
| LogParse (err : error).

(** The calls [main] defers. *)
Inductive deferred : Type :=
| d_stop
| d_objs_Close
| d_kp_Close (name : string)
| d_rd_Close.

Inductive action : Type :=
| ASetrlimit (nofile : bool)
| AGetFuncs
| AGetAddrs
| ALoadObjects (with_skb : bool)
| AConfigBPFMap (flags : Flags)
| ALog (m : log_msg)
| AFatal (m : fatal_msg)
| ABarStart (n : nat)
| ASelectAttach (done : bool)
| AKprobe (name : string) (fn : Program) (err : option error)
| ABarIncrement
| ABarFinish
| APrintAttached (ignored : Z)
| ANewReader
| APrintHeader
| ARead (record : perf_Record) (err : option error)
| APrint (ev : Event)
| ASelectConsume (done : bool)
| ARun (d : deferred).

(** ** Environment and process state *)

Record Env : Type := mkEnv {
  (** the command line *)
  argv : list flag_arg;
  (** results of the two [unix.Setrlimit] calls *)
  setrlimit_nofile : option error;
  setrlimit_memlock : option error;
  (** [pwru.GetFuncs()]: the map, listed in the order in which the
      [range] statement of line 118 visits it *)
  GetFuncs : list (string * Z) + error;
  GetAddrs : option error;
  (** [LoadKProbePWRU...Objects] *)
  LoadObjects : option error;
  (** [link.Kprobe(name, fn)]: [None] is a nil error *)
  link_Kprobe : string -> Program -> option error;
  (** [perf.NewReader] *)
  NewReader : option error;
  (** what the successive [rd.Read()] calls return *)
  rd_Read : list (perf_Record * option error);
  (** the number of calls made when [ctx] is cancelled, if ever *)
  cancelled_at : option nat
}.

Record world : Type := mkWorld {
  trace : list action;      (* oldest first *)
  defers : list deferred    (* most recently deferred first *)
}.

Definition init : world := {| trace := []; defers := [] |}.

Definition emit (a : action) (w : world) : world :=
  {| trace := trace w ++ [a]; defers := defers w |}.

Definition defer (d : deferred) (w : world) : world :=
  {| trace := trace w; defers := d :: defers w |}.

(** Whether [<-ctx.Done()] is ready: the context stays cancelled once it
    is. *)
Definition ctx_Done (env : Env) (w : world) : bool :=
  match cancelled_at env with
  | Some t => (t <=? List.length (trace w))%nat
  | None => false
  end.

(** How a piece of [main] ends: it falls through with a value, executes
    [return], calls [log.Fatalf] (which ends in [os.Exit(1)]), or is
    still blocked in [rd.Read()]. *)
Inductive flow (A : Type) : Type :=
| Next (a : A)
| Return
| Exit1
| Blocked.

Arguments Next {A} a.
Arguments Return {A}.
Arguments Exit1 {A}.
Arguments Blocked {A}.

(** ** The attach loop (lines 118-152) *)

Function attach_loop (env : Env) (funcs : list (string * Z)) (ignored : Z)
    (w : world) {struct funcs} : flow Z * world :=
  match funcs with
  | [] => (Next ignored, w)
  | (name, pos) :: rest =>
      match select_fn pos with
      | None => attach_loop env rest (int_add ignored 1) w
      | Some fn =>
          if ctx_Done env w then (Return, emit (ASelectAttach true) w)
          else
            match link_Kprobe env name fn with
            | Some err =>
                if negb (errors_Is err os_ErrNotExist) then
                  (Exit1,
                   emit (AFatal (FatalKprobe name err))
                     (emit ABarIncrement
                        (emit (AKprobe name fn (Some err))
                           (emit (ASelectAttach false) w))))
                else
                  attach_loop env rest (int_add ignored 1)
                    (emit ABarIncrement
                       (emit (AKprobe name fn (Some err))
                          (emit (ASelectAttach false) w)))
            | None =>
                attach_loop env rest ignored
                  (defer (d_kp_Close name)
                     (emit ABarIncrement
                        (emit (AKprobe name fn None)
                           (emit (ASelectAttach false) w))))
            end
      end
  end.

(** ** The consume loop (lines 176-203) *)

(** Lines 185-202, the part of the loop body after the error check.
    Every path through it reaches the next iteration: the two
    [continue] statements of lines 187 and 192, the [continue] of the
    [default] case, and the [break] of line 199, which leaves the
    [select] statement it stands in and so reaches the end of the body
    of the [for]. *)
Definition handle_record (env : Env) (event_size : nat)
    (record : perf_Record) (w : world) : world :=
  if negb (LostSamples record =? 0) then
    emit (ALog (LogDropped (LostSamples record))) w
  else
    match binary_Read event_size (RawSample record) with
    | inr err => emit (ALog (LogParse err)) w
    | inl ev =>
        let w' := emit (APrint ev) w in
        if ctx_Done env w' then emit (ASelectConsume true) w'
        else emit (ASelectConsume false) w'
    end.

(** The [for] of line 176 over the results of the successive
    [rd.Read()] calls.  When the list is used up the loop is blocked in
    [rd.Read()]. *)
Fixpoint consume_loop (env : Env) (event_size : nat)
    (reads : list (perf_Record * option error)) (w : world)
    {struct reads} : flow unit * world :=
  match reads with
  | [] => (Blocked, w)
  | (record, err) :: rest =>
      match err with
      | Some e =>
          if perf_IsClosed e then (Return, emit (ARead record err) w)
          else
            consume_loop env event_size rest
              (handle_record env event_size record
                 (emit (ALog (LogReadErr e)) (emit (ARead record err) w)))
      | None =>
          consume_loop env event_size rest
            (handle_record env event_size record (emit (ARead record err) w))
      end
  end.

(** ** [main] *)

Definition M (A : Type) : Type := world -> flow A * world.

Definition ret {A : Type} (a : A) : M A := fun w => (Next a, w).

Definition bind {A B : Type} (m : M A) (k : A -> M B) : M B :=
  fun w =>
    match m w with
    | (Next a, w') => k a w'
    | (Return, w') => (Return, w')
    | (Exit1, w') => (Exit1, w')
    | (Blocked, w') => (Blocked, w')
    end.

Declare Scope go_scope.
Delimit Scope go_scope with go.
Notation "x <- m ;; k" := (bind m (fun x => k))
  (at level 61, m at next level, right associativity) : go_scope.
Notation "m ;; k" := (bind m (fun _ => k))
  (at level 61, right associativity) : go_scope.

Definition call (a : action) : M unit := fun w => (Next tt, emit a w).

Definition go_defer (d : deferred) : M unit := fun w => (Next tt, defer d w).

(** [log.Fatalf]: the message, then [os.Exit(1)]. *)
Definition log_Fatalf {A : Type} (m : fatal_msg) : M A :=
  fun w => (Exit1, emit (AFatal m) w).

(** [if err != nil { log.Fatalf(...) }] *)
Definition must (r : option error) (m : error -> fatal_msg) : M unit :=
  match r with
  | Some err => log_Fatalf (m err)
  | None => ret tt
  end.

(** [func main].  The two goroutines that wait on [ctx.Done()] belong to
    the environment: the first only logs, and the effect of the second
    (closing the reader) is that a later [rd.Read()] returns the closed
    error, which is part of [rd_Read].  [event_size] is the encoded size
    of [pwru.Event]. *)
Definition main (event_size : nat) (env : Env) : M unit :=
  (let flags := flag_Parse (argv env) in
   call (ASetrlimit true) ;;
   must (setrlimit_nofile env) FatalRlimitNofile ;;
   call (ASetrlimit false) ;;
   must (setrlimit_memlock env) FatalRlimitMemlock ;;
   go_defer d_stop ;;
   call AGetFuncs ;;
   match GetFuncs env with
   | inr err => log_Fatalf (FatalGetFuncs err)
   | inl funcs =>
       call AGetAddrs ;;
       must (GetAddrs env) FatalGetAddrs ;;
       call (ALoadObjects (OutputSkb flags)) ;;
       must (LoadObjects env) FatalLoadObjects ;;
       go_defer d_objs_Close ;;
       call (AConfigBPFMap flags) ;;
       call (ALog LogAttaching) ;;
       call (ABarStart (List.length funcs)) ;;
       ignored <- attach_loop env funcs 0 ;;
       call ABarFinish ;;
       call (APrintAttached ignored) ;;
       call ANewReader ;;
       must (NewReader env) FatalNewReader ;;
       go_defer d_rd_Close ;;
       call (ALog LogListening) ;;
       call APrintHeader ;;
       consume_loop env event_size (rd_Read env)
   end)%go.

(** The deferred calls run last-deferred first. *)
Fixpoint run_defers (ds : list deferred) (w : world) : world :=
  match ds with
  | [] => w
  | d :: ds' => run_defers ds' (emit (ARun d) w)
  end.

Inductive exit_status : Type :=
| Exited (code : Z)
| Running.

(** A whole run of the process: when [main] returns, its deferred calls
    run and the process exits with status 0; [os.Exit(1)] ends the
    process at once, running no deferred call. *)
Definition run_main (event_size : nat) (env : Env)
  : exit_status * list action :=
  match main event_size env init with
  | (Exit1, w) => (Exited 1, trace w)
  | (Blocked, w) => (Running, trace w)
  | (Next _, w) => (Exited 0, trace (run_defers (defers w) w))
  | (Return, w) => (Exited 0, trace (run_defers (defers w) w))
  end.

(** ** Reading traces *)

(** The attempts: calls of [link.Kprobe]. *)
Definition is_attempt (a : action) : bool :=
  match a with AKprobe _ _ _ => true | _ => false end.

Definition attempts (tr : list action) : list (string * Program) :=
  flat_map (fun a => match a with
                     | AKprobe name fn _ => [(name, fn)]
                     | _ => []
                     end) tr.

(** The names of the probes that were attached. *)
Definition attached (tr : list action) : list string :=
  flat_map (fun a => match a with
                     | AKprobe name _ None => [name]
                     | _ => []
                     end) tr.

(** The names of the probes whose [kp.Close()] ran. *)
Definition released (tr : list action) : list string :=
  flat_map (fun a => match a with
                     | ARun (d_kp_Close name) => [name]
                     | _ => []
                     end) tr.

(** The counts of the "dropped %d samples" lines. *)
Definition dropped_logged (tr : list action) : list Z :=
  flat_map (fun a => match a with
                     | ALog (LogDropped n) => [n]
                     | _ => []
                     end) tr.

(** The events handed to [output.Print]. *)
Definition printed (tr : list action) : list Event :=
  flat_map (fun a => match a with
                     | APrint ev => [ev]
                     | _ => []
                     end) tr.

Definition is_fatal (a : action) : bool :=
  match a with AFatal _ => true | _ => false end.

Definition is_config (a : action) : bool :=
  match a with AConfigBPFMap _ => true | _ => false end.

Definition is_read (a : action) : bool :=
  match a with ARead _ _ => true | _ => false end.

Definition sum_Z (l : list Z) : Z := fold_right Z.add 0 l.

(** The entries the switch of line 120 sends to [link.Kprobe]. *)
Definition in_range (pos : Z) : bool := (1 <=? pos) && (pos <=? 5).

(** What one entry adds to the trace when the loop gets past it. *)
Definition attach_block (env : Env) (e : string * Z) : list action :=
  match select_fn (snd e) with
  | None => []
  | Some fn =>
      [ASelectAttach false;
       AKprobe (fst e) fn (link_Kprobe env (fst e) fn);
       ABarIncrement]
  end.

(** The attempts a catalog calls for, in order. *)
Definition wanted (funcs : list (string * Z)) : list (string * Program) :=
  flat_map (fun e => match select_fn (snd e) with
                     | Some fn => [(fst e, fn)]
                     | None => []
                     end) funcs.

(** An attempt on [e] that fails with [os.ErrNotExist]. *)
Definition not_exist (env : Env) (e : string * Z) : bool :=
  match select_fn (snd e) with
  | Some fn =>
      match link_Kprobe env (fst e) fn with
      | Some err => errors_Is err os_ErrNotExist
      | None => false
      end
  | None => false
  end.

(** An attempt on [e] that fails with another error. *)
Definition fails_hard (env : Env) (e : string * Z) : bool :=
  match select_fn (snd e) with
  | Some fn =>
      match link_Kprobe env (fst e) fn with
      | Some err => negb (errors_Is err os_ErrNotExist)
      | None => false
      end
  | None => false
  end.

(** The reads the consume loop gets through: those before the first one
    that returns the closed error. *)
Fixpoint before_closed (reads : list (perf_Record * option error))
  : list (perf_Record * option error) :=
  match reads with
  | [] => []
  | (record, err) :: rest =>
      match err with
      | Some e =>
          if perf_IsClosed e then [] else (record, err) :: before_closed rest
      | None => (record, err) :: before_closed rest
      end
  end.

Definition read_closed (r : perf_Record * option error) : bool :=
  match snd r with
  | Some e => perf_IsClosed e
  | None => false
  end.

(** A record the loop renders: no loss reported and enough bytes. *)
Definition renderable (event_size : nat) (r : perf_Record * option error)
  : bool :=
  (LostSamples (fst r) =? 0) &&
  (event_size <=? List.length (RawSample (fst r)))%nat.

(** ** Notions used in the statements *)

Definition is_consume (a : action) : bool :=
  match a with
  | ARead _ _ | ALog _ | APrint _ | ASelectConsume _ => true
  | _ => false
  end.

(** What the loop renders for one read. *)
Definition rendering (event_size : nat) (r : perf_Record * option error)
  : list Event :=
  if renderable event_size r then [firstn event_size (RawSample (fst r))]
  else [].

(** What the loop logs as dropped for one read. *)
Definition loss_line (r : perf_Record * option error) : list Z :=
  if LostSamples (fst r) =? 0 then [] else [LostSamples (fst r)].

(** The same environment with another cancellation time. *)
Definition with_cancel (c : option nat) (env : Env) : Env :=
  mkEnv (argv env) (setrlimit_nofile env) (setrlimit_memlock env)
    (GetFuncs env) (GetAddrs env) (LoadObjects env) (link_Kprobe env)
    (NewReader env) (rd_Read env) c.

Definition out_of_range (e : string * Z) : bool := negb (in_range (snd e)).

Definition attempts_on (name : string) (tr : list action)
  : list (string * Program) :=
  filter (fun a => String.eqb (fst a) name) (attempts tr).

Definition probe_table : list Program :=
  [kprobe1; kprobe2; kprobe3; kprobe4; kprobe5].

(** The calls of [main] up to the attach loop. *)
Definition prelude (env : Env) (funcs : list (string * Z)) : list action :=
  [ASetrlimit true; ASetrlimit false; AGetFuncs; AGetAddrs;
   ALoadObjects (OutputSkb (flag_Parse (argv env)));
   AConfigBPFMap (flag_Parse (argv env));
   ALog LogAttaching; ABarStart (List.length funcs)].

(** The state in which the attach loop starts. *)
Definition w_attach (env : Env) (funcs : list (string * Z)) : world :=
  {| trace := prelude env funcs; defers := [d_objs_Close; d_stop] |}.

(** Calls that are neither an attempt, nor the filter configuration, nor
    the [select] of the attach loop. *)
Definition is_quiet (a : action) : bool :=
  match a with
  | AKprobe _ _ _ | AConfigBPFMap _ | ASelectAttach _ => false
  | _ => true
  end.

(** The keys of the Go map [funcs] are distinct. *)
Definition distinct_names (env : Env) : Prop :=
  match GetFuncs env with
  | inl funcs => NoDup (map fst funcs)
  | inr _ => True
  end.

(** Two functions; attaching to the second fails with an error other
    than [os.ErrNotExist]. *)
Definition hard_failure_run : Env :=
  {| argv := [];
     setrlimit_nofile := None;
     setrlimit_memlock := None;
     GetFuncs := inl [("ip_rcv"%string, 1); ("tcp_v4_rcv"%string, 1)];
     GetAddrs := None;
     LoadObjects := None;
     link_Kprobe := fun name _ =>
       if String.eqb name "tcp_v4_rcv" then
         Some (ErrNew "permission denied")
       else None;
     NewReader := None;
     rd_Read := [];
     cancelled_at := None |}.

(** The same catalog, every attachment succeeding, with the context
    cancelled during the first attempt. *)
Definition cancelled_run : Env :=
  {| argv := [];
     setrlimit_nofile := None;
     setrlimit_memlock := None;
     GetFuncs := inl [("ip_rcv"%string, 1); ("tcp_v4_rcv"%string, 1)];
     GetAddrs := None;
     LoadObjects := None;
     link_Kprobe := fun _ _ => None;
     NewReader := None;
     rd_Read := [];
     cancelled_at := Some 10%nat |}.

(** Passing a filter flag with the value it has by default. *)
Definition default_arg (k : filter_flag) : flag_arg :=
  match k with
  | FFMark => filter_mark 0
  | FFProto => filter_proto EmptyString
  | FFSrcIP => filter_src_ip EmptyString
  | FFDstIP => filter_dst_ip EmptyString
  | FFSrcPort => filter_src_port EmptyString
  | FFDstPort => filter_dst_port EmptyString
  end.

Definition idle_env : Env :=
  {| argv := [];
     setrlimit_nofile := None;
     setrlimit_memlock := None;
     GetFuncs := inl [];
     GetAddrs := None;
     LoadObjects := None;
     link_Kprobe := fun _ _ => None;
     NewReader := None;
     rd_Read := [];
     cancelled_at := None |}.

(** A record of nine bytes, one more than an event of eight. *)
Definition nine_bytes : perf_Record :=
  {| LostSamples := 0;
     RawSample := [Byte.x01; Byte.x02; Byte.x03; Byte.x04; Byte.x05;
                   Byte.x06; Byte.x07; Byte.x08; Byte.x09] |}.

(** A catalog with an entry outside 1..5 and a function that is absent
    from the running kernel. *)
Definition skewed_catalog : list (string * Z) :=
  [("ip_rcv"%string, 1); ("kfree_skb_list"%string, 7);
   ("tcp_gone"%string, 2)].

Definition skewed_run : Env :=
  {| argv := [];
     setrlimit_nofile := None;
     setrlimit_memlock := None;
     GetFuncs := inl skewed_catalog;
     GetAddrs := None;
     LoadObjects := None;
     link_Kprobe := fun name _ =>
       if String.eqb name "tcp_gone" then
         Some (ErrWrap "opening kprobe" (ErrSentinel os_ErrNotExist))
       else None;
     NewReader := None;
     rd_Read := [];
     cancelled_at := None |}.

(** A record of three bytes. *)
Definition three_bytes : perf_Record :=
  {| LostSamples := 0; RawSample := [Byte.x01; Byte.x02; Byte.x03] |}.

(** ** Further readings of a trace *)

(** The calls of the start-up, before the filter configuration. *)
Definition is_startup (a : action) : bool :=
  match a with
  | ASetrlimit _ | AGetFuncs | AGetAddrs | ALoadObjects _ => true
  | _ => false
  end.

(** The calls one iteration of the attach loop makes when it gets past
    its entry. *)
Definition is_block (a : action) : bool :=
  match a with
  | ASelectAttach false | AKprobe _ _ _ | ABarIncrement => true
  | _ => false
  end.

(** The deferred calls that ran, in the order in which they ran. *)
Definition deferred_run (tr : list action) : list deferred :=
  flat_map (fun a => match a with
                     | ARun d => [d]
                     | _ => []
                     end) tr.

Definition is_bar_increment (a : action) : bool :=
  match a with ABarIncrement => true | _ => false end.

Definition is_new_reader (a : action) : bool :=
  match a with ANewReader => true | _ => false end.

Definition is_header (a : action) : bool :=
  match a with APrintHeader => true | _ => false end.

(** The calls [main] makes after the attach loop, the deferred calls
    apart. *)
Definition is_after_attach (a : action) : bool :=
  match a with
  | ABarFinish | APrintAttached _ | ANewReader | ALog LogListening
  | APrintHeader | ARead _ _ | APrint _ | ASelectConsume _ => true
  | _ => false
  end.

(** The errors of the "Parsing perf event" lines. *)
Definition parse_errors (tr : list action) : list error :=
  flat_map (fun a => match a with
                     | ALog (LogParse e) => [e]
                     | _ => []
                     end) tr.

(** The errors of the "Reading from perf event reader" lines. *)
Definition read_errors (tr : list action) : list error :=
  flat_map (fun a => match a with
                     | ALog (LogReadErr e) => [e]
                     | _ => []
                     end) tr.

(** A [rd.Read()] that returned the closed error. *)
Definition is_closed_read (a : action) : bool :=
  match a with
  | ARead _ (Some e) => perf_IsClosed e
  | _ => false
  end.

(** A read that returned an error other than the closed one. *)
Definition read_failed (r : perf_Record * option error) : bool :=
  match snd r with
  | Some e => negb (perf_IsClosed e)
  | None => false
  end.

Definition is_run (a : action) : bool :=
  match a with ARun _ => true | _ => false end.

(** The [select] of the attach loop finding the context cancelled. *)
Definition is_cancel_select (a : action) : bool :=
  match a with ASelectAttach true => true | _ => false end.

(** A record holding the event [ev] followed by [padding]. *)
Definition padded_record (ev padding : list Byte.byte) : perf_Record :=
  {| LostSamples := 0; RawSample := ev ++ padding |}.

(** The calls that can follow the blocks of the attach loop: the
    [select] that found the context cancelled, a fatal message, what
    [main] does after the loop, and the deferred calls. *)
Definition is_late (a : action) : bool :=
  is_cancel_select a || is_fatal a || is_after_attach a || is_consume a
  || is_run a.

(** Every step before the attach loop succeeds and [GetFuncs] returns
    [funcs]. *)
Definition startup_ok (env : Env) (funcs : list (string * Z)) : Prop :=
  setrlimit_nofile env = None /\
  setrlimit_memlock env = None /\
  GetFuncs env = inl funcs /\
  GetAddrs env = None /\
  LoadObjects env = None.

(** The state in which the consume loop starts. *)
Definition w_consume (ignored : Z) (wa : world) : world :=
  emit APrintHeader
    (emit (ALog LogListening)
       (defer d_rd_Close
          (emit ANewReader
             (emit (APrintAttached ignored) (emit ABarFinish wa))))).

(** ** Further example runs *)

(** The kernel exposes no type information: [pwru.GetFuncs] fails. *)
Definition no_btf_run : Env :=
  {| argv := [];
     setrlimit_nofile := None;
     setrlimit_memlock := None;
     GetFuncs := inr (ErrNew "no BTF");
     GetAddrs := None;
     LoadObjects := None;
     link_Kprobe := fun _ _ => None;
     NewReader := None;
     rd_Read := [];
     cancelled_at := None |}.

(** [skewed_run] with [perf.NewReader] failing. *)
Definition reader_failure_run : Env :=
  {| argv := [];
     setrlimit_nofile := None;
     setrlimit_memlock := None;
     GetFuncs := inl skewed_catalog;
     GetAddrs := None;
     LoadObjects := None;
     link_Kprobe := link_Kprobe skewed_run;
     NewReader := Some (ErrNew "cannot create perf event");
     rd_Read := [];
     cancelled_at := None |}.

(** A record reporting two lost samples and carrying bytes. *)
Definition lossy_record : perf_Record :=
  {| LostSamples := 2; RawSample := RawSample nine_bytes |}.

(** What a reader hands out in a short session: an event, a loss
    notice, a truncated record, then the closed error, and a record that
    is never asked for. *)
Definition short_session : list (perf_Record * option error) :=
  [(nine_bytes, None); (lossy_record, None); (three_bytes, None);
   ({| LostSamples := 0; RawSample := [] |},
    Some (ErrSentinel perf_errClosed));
   (nine_bytes, None)].

(** [skewed_run] reading [short_session]. *)
Definition traced_run : Env :=
  {| argv := [];
     setrlimit_nofile := None;
     setrlimit_memlock := None;
     GetFuncs := inl skewed_catalog;
     GetAddrs := None;
     LoadObjects := None;
     link_Kprobe := link_Kprobe skewed_run;
     NewReader := None;
     rd_Read := short_session;
     cancelled_at := Some 25%nat |}.

(** ** Getting to an entry of the catalog *)

(** Whether the attach loop, started in state [w], gets to
    [link.Kprobe] for the entry that follows the entries [before]: no
    attempt on an entry of [before] failed with an error other than
    [os.ErrNotExist], and the context is not cancelled when the [select]
    of that entry runs, which is after the calls made so far and the
    three calls ([select], [link.Kprobe], [bar.Increment]) of each entry
    of [before] with position in 1..5. *)
Definition reached (env : Env) (w : world) (before : list (string * Z))
  : bool :=
  negb (existsb (fails_hard env) before) &&
  match cancelled_at env with
  | Some s =>
      (List.length (trace w) + 3 * List.length (wanted before) <? s)%nat
  | None => true
  end.

(** ** The process from its first instruction *)

(** What [flag.Parse()] (line 53) does with the command line.  The flag
    set is [flag.CommandLine], which is created with
    [flag.ExitOnError]: on [-h] or [-help] it prints the usage and calls
    [os.Exit(0)], on an unknown flag or a value it cannot convert it
    calls [os.Exit(2)]; otherwise it returns, the values stored. *)
Inductive parse_outcome : Type :=
| parse_ok
| parse_help
| parse_error.

(** The whole process: [run_main] describes it from line 55 on, once
    [flag.Parse()] has returned.  The calls in the trace are those of
    the goroutine that runs [main]; what the two goroutines of lines 69
    and 162 do themselves (the log line of the first, [rd.Close()] and
    its [log.Fatalf] in the second) is not part of it. *)
Definition run_process (event_size : nat) (po : parse_outcome) (env : Env)
  : exit_status * list action :=
  match po with
  | parse_ok => run_main event_size env
  | parse_help => (Exited 0, [])
  | parse_error => (Exited 2, [])
  end.

(** The catalog of [hard_failure_run], with the context cancelled while
    the second attempt, which fails, is under way. *)
Definition cancelled_then_failed_run : Env :=
  {| argv := [];
     setrlimit_nofile := None;
     setrlimit_memlock := None;
     GetFuncs := inl [("ip_rcv"%string, 1); ("tcp_v4_rcv"%string, 1)];
     GetAddrs := None;
     LoadObjects := None;
     link_Kprobe := link_Kprobe hard_failure_run;
     NewReader := None;
     rd_Read := [];
     cancelled_at := Some 12%nat |}.

(* ================================================================= *)
(** * Properties *)

(** ** Lists and traces *)

Lemma select_fn_in_range (pos : Z) :
  select_fn pos = None <-> in_range pos = false.
Proof.
  unfold select_fn, in_range.
  destruct (pos =? 1) eqn:E1; [apply Z.eqb_eq in E1; subst; simpl; split; discriminate|].
  destruct (pos =? 2) eqn:E2; [apply Z.eqb_eq in E2; subst; simpl; split; discriminate|].
  destruct (pos =? 3) eqn:E3; [apply Z.eqb_eq in E3; subst; simpl; split; discriminate|].
  destruct (pos =? 4) eqn:E4; [apply Z.eqb_eq in E4; subst; simpl; split; discriminate|].
  destruct (pos =? 5) eqn:E5; [apply Z.eqb_eq in E5; subst; simpl; split; discriminate|].
  apply Z.eqb_neq in E1, E2, E3, E4, E5.
  split; [intros _|reflexivity].
  apply andb_false_iff.
  destruct (1 <=? pos) eqn:L; [right|left; reflexivity].
  apply Z.leb_le in L. apply Z.leb_gt. lia.
Qed.

Lemma int_add_small (a : Z) :
  0 <= a -> a + 1 <= int_max -> int_add a 1 = a + 1.
Proof.
  unfold int_add, int_wrap, int_max. intros Ha Hb.
  rewrite Z.mod_small by lia. lia.
Qed.

Lemma attempts_app (l l' : list action) :
  attempts (l ++ l') = attempts l ++ attempts l'.
Proof. apply flat_map_app. Qed.

Lemma attached_app (l l' : list action) :
  attached (l ++ l') = attached l ++ attached l'.
Proof. apply flat_map_app. Qed.

Lemma released_app (l l' : list action) :
  released (l ++ l') = released l ++ released l'.
Proof. apply flat_map_app. Qed.

Lemma dropped_logged_app (l l' : list action) :
  dropped_logged (l ++ l') = dropped_logged l ++ dropped_logged l'.
Proof. apply flat_map_app. Qed.

Lemma printed_app (l l' : list action) :
  printed (l ++ l') = printed l ++ printed l'.
Proof. apply flat_map_app. Qed.

Lemma sum_Z_app (l l' : list Z) : sum_Z (l ++ l') = sum_Z l + sum_Z l'.
Proof. induction l as [|x l IH]; simpl; [reflexivity|rewrite IH; lia]. Qed.

(** ** Shape of the attach loop's trace *)

(** Rewrite with the branch equations functional induction leaves. *)
Ltac branch_eqs :=
  repeat match goal with
         | H : select_fn _ = _ |- _ => rewrite H in *; clear H
         | H : link_Kprobe _ _ _ = _ |- _ => rewrite H in *; clear H
         | H : negb (errors_Is _ _) = true |- _ =>
             apply negb_true_iff in H
         | H : negb (errors_Is _ _) = false |- _ =>
             apply negb_false_iff in H
         | H : errors_Is _ os_ErrNotExist = _ |- _ => rewrite H in *; clear H
         end.

(** The loop gets past a prefix [done] of the catalog, adding the block
    of each of its entries, and then ends in one of three ways. *)
Lemma attach_loop_shape (env : Env) (funcs : list (string * Z)) (ignored : Z)
    (w : world) (o : flow Z) (w' : world) :
  attach_loop env funcs ignored w = (o, w') ->
  exists done rest tail,
    funcs = done ++ rest /\
    trace w' = trace w ++ flat_map (attach_block env) done ++ tail /\
    defers w' =
      map d_kp_Close (rev (attached (flat_map (attach_block env) done)))
        ++ defers w /\
    existsb (fails_hard env) (removelast done) = false /\
    match o with
    | Next _ => rest = [] /\ tail = []
    | Return => tail = [ASelectAttach true]
    | Exit1 => exists name err, tail = [AFatal (FatalKprobe name err)]
    | Blocked => False
    end.
Proof.
  functional induction (attach_loop env funcs ignored w); intro H.
  - inversion H; subst. exists [], [], []. simpl.
    rewrite app_nil_r. repeat split; auto.
  - destruct (IHp H) as (done & rest' & tail & -> & Ht & Hd & Hf & Ho).
    exists ((name, pos) :: done), rest', tail.
    assert (Hb : attach_block env (name, pos) = [])
      by (unfold attach_block; simpl; branch_eqs; reflexivity).
    assert (Hh : fails_hard env (name, pos) = false)
      by (unfold fails_hard; simpl; branch_eqs; reflexivity).
    simpl flat_map. rewrite Hb. simpl. repeat split; auto.
    destruct done; [reflexivity|].
    simpl in Hf. simpl existsb. rewrite Hh. exact Hf.
  - inversion H; subst. exists [], ((name, pos) :: rest), [ASelectAttach true].
    simpl. repeat split; auto.
  - inversion H; subst. exists [(name, pos)], rest.
    exists [AFatal (FatalKprobe name err)].
    unfold attach_block. simpl. branch_eqs. simpl.
    rewrite <- !app_assoc. simpl.
    repeat split; eauto.
  - destruct (IHp H) as (done & rest' & tail & -> & Ht & Hd & Hf & Ho).
    exists ((name, pos) :: done), rest', tail.
    assert (Hb : attach_block env (name, pos) =
                 [ASelectAttach false; AKprobe name fn (Some err);
                  ABarIncrement])
      by (unfold attach_block; simpl; branch_eqs; reflexivity).
    assert (Hh : fails_hard env (name, pos) = false)
      by (unfold fails_hard; simpl; branch_eqs; reflexivity).
    simpl flat_map. rewrite Hb. rewrite Ht, Hd. simpl.
    rewrite <- !app_assoc. simpl. repeat split; auto.
    destruct done; [reflexivity|].
    simpl in Hf. simpl existsb. rewrite Hh. exact Hf.
  - destruct (IHp H) as (done & rest' & tail & -> & Ht & Hd & Hf & Ho).
    exists ((name, pos) :: done), rest', tail.
    assert (Hb : attach_block env (name, pos) =
                 [ASelectAttach false; AKprobe name fn None; ABarIncrement])
      by (unfold attach_block; simpl; branch_eqs; reflexivity).
    assert (Hh : fails_hard env (name, pos) = false)
      by (unfold fails_hard; simpl; branch_eqs; reflexivity).
    simpl flat_map. rewrite Hb. rewrite Ht, Hd. simpl.
    rewrite map_app. simpl.
    rewrite <- !app_assoc. simpl. repeat split; auto.
    destruct done; [reflexivity|].
    simpl in Hf. simpl existsb. rewrite Hh. exact Hf.
Qed.

(** ** The consume loop *)

Lemma binary_Read_enough (event_size : nat) (raw : list Byte.byte) :
  (event_size <= List.length raw)%nat ->
  binary_Read event_size raw = inl (firstn event_size raw).
Proof.
  intro H. unfold binary_Read.
  destruct (Nat.ltb_spec (List.length raw) event_size); [lia|reflexivity].
Qed.

Lemma binary_Read_short (event_size : nat) (raw : list Byte.byte) :
  (List.length raw < event_size)%nat ->
  exists err, binary_Read event_size raw = inr err.
Proof.
  intro H. unfold binary_Read.
  destruct (Nat.ltb_spec (List.length raw) event_size); [eauto|lia].
Qed.

Lemma handle_record_spec (env : Env) (event_size : nat)
    (record : perf_Record) (err : option error) (w : world) :
  exists hr,
    trace (handle_record env event_size record w) = trace w ++ hr /\
    defers (handle_record env event_size record w) = defers w /\
    forallb is_consume hr = true /\
    filter is_read hr = [] /\
    dropped_logged hr = loss_line (record, err) /\
    printed hr = rendering event_size (record, err).
Proof.
  unfold handle_record, loss_line, rendering, renderable. simpl.
  destruct (LostSamples record =? 0) eqn:E; simpl.
  - destruct (Nat.leb_spec event_size (List.length (RawSample record)))
      as [L|L].
    + rewrite binary_Read_enough by exact L.
      destruct (ctx_Done env _); simpl; rewrite <- app_assoc;
        eexists; repeat split; reflexivity.
    + destruct (binary_Read_short event_size (RawSample record) L)
        as [e He].
      rewrite He. simpl. eexists; repeat split; reflexivity.
  - eexists; repeat split; reflexivity.
Qed.

(** The loop returns exactly when some read returns the closed error;
    otherwise it stays in [rd.Read()].  The cancellation signal plays no
    part. *)
Lemma consume_loop_outcome (env : Env) (event_size : nat)
    (reads : list (perf_Record * option error)) (w : world) :
  fst (consume_loop env event_size reads w) =
  if existsb read_closed reads then Return else Blocked.
Proof.
  revert w. induction reads as [|[record err] rest IH]; intro w.
  - reflexivity.
  - simpl. unfold read_closed at 1. simpl.
    destruct err as [e|]; [destruct (perf_IsClosed e)|]; simpl;
      try reflexivity; apply IH.
Qed.

Lemma consume_loop_shape (env : Env) (event_size : nat)
    (reads : list (perf_Record * option error)) (w : world) :
  exists tr,
    trace (snd (consume_loop env event_size reads w)) = trace w ++ tr /\
    defers (snd (consume_loop env event_size reads w)) = defers w /\
    forallb is_consume tr = true /\
    List.length (filter is_read tr) =
      (List.length (before_closed reads) +
       if existsb read_closed reads then 1 else 0)%nat /\
    dropped_logged tr = flat_map loss_line (before_closed reads) /\
    printed tr = flat_map (rendering event_size) (before_closed reads).
Proof.
  revert w. induction reads as [|[record err] rest IH]; intro w.
  - exists []. simpl. rewrite app_nil_r. repeat split; reflexivity.
  - simpl. unfold read_closed at 1. simpl.
    destruct err as [e|]; [destruct (perf_IsClosed e) eqn:C|].
    + simpl. eexists. repeat split; reflexivity.
    + simpl.
      destruct (handle_record_spec env event_size record (Some e)
                  (emit (ALog (LogReadErr e))
                     (emit (ARead record (Some e)) w)))
        as (hr & Ht & Hd & Hc & Hr & Hl & Hp).
      destruct (IH (handle_record env event_size record
                      (emit (ALog (LogReadErr e))
                         (emit (ARead record (Some e)) w))))
        as (tr & Ht' & Hd' & Hc' & Hr' & Hl' & Hp').
      exists ([ARead record (Some e); ALog (LogReadErr e)] ++ hr ++ tr).
      rewrite Ht', Hd', Ht, Hd. simpl.
      rewrite forallb_app, filter_app, length_app, dropped_logged_app,
        printed_app, Hc, Hc', Hr, Hr', Hl, Hl', Hp, Hp'.
      rewrite <- !app_assoc. simpl. repeat split; reflexivity.
    + simpl.
      destruct (handle_record_spec env event_size record None
                  (emit (ARead record None) w))
        as (hr & Ht & Hd & Hc & Hr & Hl & Hp).
      destruct (IH (handle_record env event_size record
                      (emit (ARead record None) w)))
        as (tr & Ht' & Hd' & Hc' & Hr' & Hl' & Hp').
      exists ([ARead record None] ++ hr ++ tr).
      rewrite Ht', Hd', Ht, Hd. simpl.
      rewrite forallb_app, filter_app, length_app, dropped_logged_app,
        printed_app, Hc, Hc', Hr, Hr', Hl, Hl', Hp, Hp'.
      rewrite <- !app_assoc. simpl. repeat split; reflexivity.
Qed.

Lemma loss_line_sum (reads : list (perf_Record * option error)) :
  sum_Z (flat_map loss_line reads) =
  sum_Z (map (fun r => LostSamples (fst r)) reads).
Proof.
  induction reads as [|r reads IH]; [reflexivity|].
  simpl. rewrite sum_Z_app, IH. unfold loss_line.
  destruct (Z.eqb_spec (LostSamples (fst r)) 0) as [E|E]; simpl; lia.
Qed.

Lemma loss_line_filter (reads : list (perf_Record * option error)) :
  flat_map loss_line reads =
  filter (fun n => negb (n =? 0))
    (map (fun r => LostSamples (fst r)) reads).
Proof.
  induction reads as [|r reads IH]; [reflexivity|].
  simpl. rewrite IH. unfold loss_line.
  destruct (LostSamples (fst r) =? 0); reflexivity.
Qed.

Lemma forallb_consume_not_fatal (tr : list action) :
  forallb is_consume tr = true -> filter is_fatal tr = [].
Proof.
  induction tr as [|a tr IH]; [reflexivity|].
  simpl. intro H. apply andb_true_iff in H. destruct H as [Ha Ht].
  destruct a; try discriminate; simpl; auto.
Qed.

(** ** The attach loop: counts *)

Lemma attach_loop_counts (env : Env) (funcs : list (string * Z)) (ignored : Z)
    (w : world) (ignored' : Z) (w' : world) :
  attach_loop env funcs ignored w = (Next ignored', w') ->
  0 <= ignored ->
  ignored + Z.of_nat (List.length funcs) <= int_max ->
  Z.of_nat (List.length (attached (trace w'))) + ignored' =
    Z.of_nat (List.length (attached (trace w))) + ignored
    + Z.of_nat (List.length funcs) /\
  ignored' =
    ignored + Z.of_nat (List.length (filter out_of_range funcs))
    + Z.of_nat (List.length (filter (not_exist env) funcs)).
Proof.
  functional induction (attach_loop env funcs ignored w);
    intros H H0 Hmax; try discriminate.
  - inversion H; subst. simpl. lia.
  - simpl List.length in Hmax.
    rewrite int_add_small in * by lia.
    destruct (IHp H) as [IH1 IH2]; [lia|lia|].
    assert (Ho : out_of_range (name, pos) = true).
    { unfold out_of_range. simpl.
      apply negb_true_iff, select_fn_in_range.
      match goal with E : select_fn _ = None |- _ => exact E end. }
    assert (Hn : not_exist env (name, pos) = false)
      by (unfold not_exist; simpl; branch_eqs; reflexivity).
    simpl filter. rewrite Ho, Hn. simpl List.length. lia.
  - simpl List.length in Hmax.
    rewrite int_add_small in * by lia.
    destruct (IHp H) as [IH1 IH2]; [lia|lia|].
    assert (Ho : out_of_range (name, pos) = false).
    { unfold out_of_range. simpl. apply negb_false_iff.
      destruct (in_range pos) eqn:E; [reflexivity|].
      apply select_fn_in_range in E. branch_eqs. discriminate. }
    assert (Hn : not_exist env (name, pos) = true)
      by (unfold not_exist; simpl; branch_eqs; reflexivity).
    simpl filter. rewrite Ho, Hn. simpl List.length.
    simpl trace in IH1. rewrite !attached_app in IH1. simpl in IH1.
    rewrite !app_nil_r in IH1. lia.
  - simpl List.length in Hmax.
    destruct (IHp H) as [IH1 IH2]; [lia|lia|].
    assert (Ho : out_of_range (name, pos) = false).
    { unfold out_of_range. simpl. apply negb_false_iff.
      destruct (in_range pos) eqn:E; [reflexivity|].
      apply select_fn_in_range in E. branch_eqs. discriminate. }
    assert (Hn : not_exist env (name, pos) = false)
      by (unfold not_exist; simpl; branch_eqs; reflexivity).
    simpl filter. rewrite Ho, Hn. simpl List.length.
    simpl trace in IH1. rewrite !attached_app in IH1. simpl in IH1.
    rewrite !app_nil_r, length_app in IH1. simpl in IH1. lia.
Qed.

Lemma attempts_blocks (env : Env) (l : list (string * Z)) :
  attempts (flat_map (attach_block env) l) = wanted l.
Proof.
  induction l as [|e l IH]; [reflexivity|].
  simpl. rewrite attempts_app, IH. unfold attach_block.
  destruct (select_fn (snd e)); reflexivity.
Qed.

Lemma wanted_in_range (l : list (string * Z)) :
  map fst (wanted l) = map fst (filter (fun e => in_range (snd e)) l).
Proof.
  induction l as [|e l IH]; [reflexivity|].
  simpl. rewrite map_app, IH.
  destruct (select_fn (snd e)) eqn:E.
  - destruct (in_range (snd e)) eqn:R; [reflexivity|].
    apply select_fn_in_range in R. congruence.
  - apply select_fn_in_range in E. rewrite E. reflexivity.
Qed.

Lemma blocks_no_fatal (env : Env) (l : list (string * Z)) :
  filter is_fatal (flat_map (attach_block env) l) = [].
Proof.
  induction l as [|e l IH]; [reflexivity|].
  simpl. rewrite filter_app, IH. unfold attach_block.
  destruct (select_fn (snd e)); reflexivity.
Qed.


(** Without cancellation and without a hard failure the loop falls
    through. *)
Lemma attach_loop_completes (env : Env) (funcs : list (string * Z))
    (ignored : Z) (w : world) :
  cancelled_at env = None ->
  existsb (fails_hard env) funcs = false ->
  exists ignored' w', attach_loop env funcs ignored w = (Next ignored', w').
Proof.
  intro Hc.
  functional induction (attach_loop env funcs ignored w); intro Hf.
  - eauto.
  - apply IHp. simpl in Hf. apply orb_false_iff in Hf. tauto.
  - unfold ctx_Done in *. rewrite Hc in *. discriminate.
  - simpl in Hf. apply orb_false_iff in Hf. destruct Hf as [Hf _].
    unfold fails_hard in Hf. simpl in Hf. branch_eqs. discriminate.
  - apply IHp. simpl in Hf. apply orb_false_iff in Hf. tauto.
  - apply IHp. simpl in Hf. apply orb_false_iff in Hf. tauto.
Qed.

(** ** The attach loop: which attempts are made *)

Lemma select_fn_table (pos : Z) :
  select_fn pos =
  if in_range pos then nth_error probe_table (Z.to_nat (pos - 1)) else None.
Proof.
  destruct (in_range pos) eqn:R.
  - unfold in_range in R. apply andb_true_iff in R. destruct R as [R1 R2].
    apply Z.leb_le in R1, R2.
    assert (C : pos = 1 \/ pos = 2 \/ pos = 3 \/ pos = 4 \/ pos = 5) by lia.
    destruct C as [->|[->|[->|[->| ->]]]]; reflexivity.
  - apply select_fn_in_range. exact R.
Qed.

Lemma wanted_on_absent (name : string) (l : list (string * Z)) :
  ~ In name (map fst l) ->
  filter (fun a => String.eqb (fst a) name) (wanted l) = [].
Proof.
  induction l as [|[n p] l IH]; intro H; [reflexivity|].
  simpl in *. rewrite filter_app, IH by tauto.
  destruct (select_fn p); [|reflexivity].
  simpl. destruct (String.eqb_spec n name); [tauto|reflexivity].
Qed.

Lemma wanted_on_present (name : string) (pos : Z) (l : list (string * Z)) :
  NoDup (map fst l) -> In (name, pos) l ->
  filter (fun a => String.eqb (fst a) name) (wanted l) =
  match select_fn pos with
  | Some fn => [(name, fn)]
  | None => []
  end.
Proof.
  induction l as [|[n p] l IH]; intros Hn Hi; [contradiction|].
  simpl in Hn. inversion Hn as [|? ? Hnotin Hn']; subst.
  simpl. rewrite filter_app. destruct Hi as [E|Hi].
  - inversion E; subst. rewrite (wanted_on_absent name l Hnotin).
    destruct (select_fn pos); [|reflexivity].
    simpl. rewrite String.eqb_refl. reflexivity.
  - rewrite (IH Hn' Hi).
    assert (n <> name).
    { intros ->. apply Hnotin. apply (in_map fst) in Hi. exact Hi. }
    destruct (select_fn p); [|reflexivity].
    simpl. destruct (String.eqb_spec n name); [contradiction|reflexivity].
Qed.

Lemma shape_tail_attempts (A : Type) (o : flow A) (tail : list action) :
  match o with
  | Next _ => tail = []
  | Return => tail = [ASelectAttach true]
  | Exit1 => exists name err, tail = [AFatal (FatalKprobe name err)]
  | Blocked => False
  end ->
  attempts tail = [] /\ attached tail = [] /\ released tail = [] /\
  filter is_config tail = [].
Proof.
  destruct o; intro H.
  - subst; auto.
  - subst; auto.
  - destruct H as (name & err & ->); auto.
  - contradiction.
Qed.

(** C3.  When the attach loop falls through (no fatal error, no
    cancellation), the number of probes attached plus the value of
    [ignored] is the size of the catalog; the attempts made are those on
    the entries with position in 1..5, and [ignored] counts the entries
    outside 1..5 and the attempts that failed with [os.ErrNotExist]. *)
Theorem attached_plus_ignored_is_catalog_size
    (env : Env) (funcs : list (string * Z)) (w : world)
    (ignored' : Z) (w' : world) :
  Z.of_nat (List.length funcs) <= int_max ->
  attach_loop env funcs 0 w = (Next ignored', w') ->
  exists tr,
    trace w' = trace w ++ tr /\
    Z.of_nat (List.length (attached tr)) + ignored'
      = Z.of_nat (List.length funcs) /\
    map fst (attempts tr)
      = map fst (filter (fun e => in_range (snd e)) funcs) /\
    ignored' =
      Z.of_nat (List.length (filter out_of_range funcs))
      + Z.of_nat (List.length (filter (not_exist env) funcs)).
Proof.
  intros Hmax H.
  destruct (attach_loop_shape _ _ _ _ _ _ H)
    as (done & rest & tail & Hf & Ht & _ & _ & -> & ->).
  rewrite app_nil_r in Hf, Ht. subst done.
  destruct (attach_loop_counts _ _ _ _ _ _ H) as [C1 C2]; [lia|lia|].
  exists (flat_map (attach_block env) funcs). repeat split.
  - exact Ht.
  - rewrite Ht, attached_app, length_app in C1. lia.
  - rewrite attempts_blocks. apply wanted_in_range.
  - lia.
Qed.

Lemma attempts_on_app (name : string) (l l' : list action) :
  attempts_on name (l ++ l') = attempts_on name l ++ attempts_on name l'.
Proof. unfold attempts_on. rewrite attempts_app, filter_app. reflexivity. Qed.

Lemma reached_nil (env : Env) (w : world) :
  ctx_Done env w = false -> reached env w [] = true.
Proof.
  unfold ctx_Done, reached. simpl. rewrite Nat.add_0_r.
  destruct (cancelled_at env) as [s|]; [|reflexivity].
  intro H. apply Nat.leb_gt in H. apply Nat.ltb_lt. exact H.
Qed.

Lemma reached_cancelled (env : Env) (w : world)
    (before : list (string * Z)) :
  ctx_Done env w = true -> reached env w before = false.
Proof.
  unfold ctx_Done, reached.
  destruct (cancelled_at env) as [s|]; [|discriminate].
  intro H. apply Nat.leb_le in H.
  apply andb_false_iff. right. apply Nat.ltb_ge. lia.
Qed.

Lemma reached_skip (env : Env) (w : world) (h : string * Z)
    (before : list (string * Z)) :
  select_fn (snd h) = None ->
  reached env w (h :: before) = reached env w before.
Proof.
  intro H. unfold reached, fails_hard, wanted. simpl. rewrite H.
  reflexivity.
Qed.

Lemma reached_hard (env : Env) (w : world) (h : string * Z)
    (before : list (string * Z)) :
  fails_hard env h = true -> reached env w (h :: before) = false.
Proof. intro H. unfold reached. simpl. rewrite H. reflexivity. Qed.

Lemma reached_step (env : Env) (w w2 : world) (h : string * Z)
    (fn : Program) (before : list (string * Z)) :
  select_fn (snd h) = Some fn ->
  fails_hard env h = false ->
  List.length (trace w2) = (List.length (trace w) + 3)%nat ->
  reached env w2 before = reached env w (h :: before).
Proof.
  intros Hs Hf Hl. unfold reached, wanted. simpl. rewrite Hs, Hf, Hl.
  simpl. f_equal.
  destruct (cancelled_at env) as [s|]; [|reflexivity].
  f_equal. lia.
Qed.

(** The loop makes no attempt on a name that is not in its catalog. *)
Lemma attach_loop_other_names (env : Env) (funcs : list (string * Z))
    (ignored : Z) (w : world) (o : flow Z) (w' : world) (name : string) :
  attach_loop env funcs ignored w = (o, w') ->
  ~ In name (map fst funcs) ->
  attempts_on name (trace w') = attempts_on name (trace w).
Proof.
  intros H Hn.
  destruct (attach_loop_shape _ _ _ _ _ _ H)
    as (done & rest & tail & Hf & Ht & _ & _ & Ho).
  assert (Hta : attempts tail = []).
  { apply (shape_tail_attempts Z o). destruct o; tauto. }
  rewrite Ht, !attempts_on_app. unfold attempts_on at 2 3.
  rewrite Hta, attempts_blocks, wanted_on_absent.
  - simpl. rewrite app_nil_r. reflexivity.
  - intro Hin. apply Hn. rewrite Hf, map_app. apply in_or_app. left.
    exact Hin.
Qed.

(** The attempts the loop makes on the entry that follows [before]. *)
Lemma attach_loop_reached (env : Env) (funcs : list (string * Z))
    (ignored : Z) (w : world) (o : flow Z) (w' : world) :
  attach_loop env funcs ignored w = (o, w') ->
  NoDup (map fst funcs) ->
  forall before name pos after fn,
    funcs = before ++ (name, pos) :: after ->
    select_fn pos = Some fn ->
    attempts_on name (trace w') =
    attempts_on name (trace w)
    ++ (if reached env w before then [(name, fn)] else []).
Proof.
  functional induction (attach_loop env funcs ignored w);
    intros H Hnd before nm ps after fn' Hfuncs Hsel.
  - destruct before; discriminate.
  - destruct before as [|h before]; simpl in Hfuncs; inversion Hfuncs; subst.
    + congruence.
    + rewrite reached_skip by assumption.
      simpl in Hnd. inversion Hnd; subst.
      eapply IHp; eauto.
  - inversion H; subst. simpl trace.
    rewrite attempts_on_app, reached_cancelled by assumption.
    reflexivity.
  - inversion H; subst. simpl trace. rewrite <- !app_assoc.
    rewrite attempts_on_app. f_equal.
    destruct before as [|h before]; simpl in Hfuncs; inversion Hfuncs; subst.
    + rewrite reached_nil by assumption.
      assert (fn = fn') by congruence. subst fn'.
      unfold attempts_on. simpl. rewrite String.eqb_refl. reflexivity.
    + assert (Hh : fails_hard env (name, pos) = true)
        by (unfold fails_hard; simpl; branch_eqs; reflexivity).
      rewrite reached_hard by exact Hh.
      simpl in Hnd. inversion Hnd as [|? ? Hnotin ?]; subst.
      assert (name <> nm).
      { intros ->. apply Hnotin. rewrite map_app. apply in_or_app.
        right. left. reflexivity. }
      unfold attempts_on. simpl.
      destruct (String.eqb_spec name nm); [contradiction|reflexivity].
  - assert (Hh : fails_hard env (name, pos) = false)
      by (unfold fails_hard; simpl; branch_eqs; reflexivity).
    simpl in Hnd. inversion Hnd as [|? ? Hnotin Hnd']; subst.
    destruct before as [|h before]; simpl in Hfuncs; inversion Hfuncs; subst.
    + rewrite (attach_loop_other_names _ _ _ _ _ _ nm H Hnotin).
      rewrite reached_nil by assumption.
      assert (fn = fn') by congruence. subst fn'.
      simpl trace. rewrite <- !app_assoc, attempts_on_app. f_equal.
      unfold attempts_on. simpl. rewrite String.eqb_refl. reflexivity.
    + rewrite (IHp H Hnd' before nm ps after fn' eq_refl Hsel).
      match goal with
      | |- context [reached env ?w2 before] =>
          rewrite (reached_step env w w2 (name, pos) fn before);
            [|assumption|exact Hh|simpl; rewrite !length_app; simpl; lia]
      end.
      f_equal. simpl trace. rewrite <- !app_assoc, attempts_on_app.
      assert (name <> nm).
      { intros ->. apply Hnotin. rewrite map_app. apply in_or_app.
        right. left. reflexivity. }
      unfold attempts_on at 2. simpl.
      destruct (String.eqb_spec name nm); [contradiction|].
      rewrite app_nil_r. reflexivity.
  - assert (Hh : fails_hard env (name, pos) = false)
      by (unfold fails_hard; simpl; branch_eqs; reflexivity).
    simpl in Hnd. inversion Hnd as [|? ? Hnotin Hnd']; subst.
    destruct before as [|h before]; simpl in Hfuncs; inversion Hfuncs; subst.
    + rewrite (attach_loop_other_names _ _ _ _ _ _ nm H Hnotin).
      rewrite reached_nil by assumption.
      assert (fn = fn') by congruence. subst fn'.
      simpl trace. rewrite <- !app_assoc, attempts_on_app. f_equal.
      unfold attempts_on. simpl. rewrite String.eqb_refl. reflexivity.
    + rewrite (IHp H Hnd' before nm ps after fn' eq_refl Hsel).
      match goal with
      | |- context [reached env ?w2 before] =>
          rewrite (reached_step env w w2 (name, pos) fn before);
            [|assumption|exact Hh|simpl; rewrite !length_app; simpl; lia]
      end.
      f_equal. simpl trace. rewrite <- !app_assoc, attempts_on_app.
      assert (name <> nm).
      { intros ->. apply Hnotin. rewrite map_app. apply in_or_app.
        right. left. reflexivity. }
      unfold attempts_on at 2. simpl.
      destruct (String.eqb_spec name nm); [contradiction|].
      rewrite app_nil_r. reflexivity.
Qed.

(** On [cancelled_run] the entry of [tcp_v4_rcv], whose position is 1,
    is never attempted: the [select] before it finds the context
    cancelled. *)
Lemma entry_in_range_without_attempt :
  In ("tcp_v4_rcv"%string, 1)
    [("ip_rcv"%string, 1); ("tcp_v4_rcv"%string, 1)] /\
  GetFuncs cancelled_run =
    inl [("ip_rcv"%string, 1); ("tcp_v4_rcv"%string, 1)] /\
  in_range 1 = true /\
  attempts (snd (run_main 8 cancelled_run)) = [("ip_rcv"%string, kprobe1)] /\
  attempts_on "tcp_v4_rcv" (snd (run_main 8 cancelled_run)) = [].
Proof.
  split; [right; left; reflexivity|]. repeat split; reflexivity.
Qed.

(** C4, amended.  The switch is the closed table of the five programs:
    position [k] in 1..5 selects the [k]-th, any other position selects
    nothing.  In every run of the attach loop over a catalog (a Go map:
    distinct names), an entry outside 1..5 is never attempted; an entry
    with position [k] in 1..5 is attempted exactly once, with the [k]-th
    program, when the loop reaches its [link.Kprobe] (no earlier attempt
    failed with an error other than [os.ErrNotExist], and the context is
    not cancelled when the [select] before it runs), and is not attempted
    otherwise. *)
Theorem entry_attempted_once_when_reached
    (env : Env) (funcs : list (string * Z)) (ignored : Z) (w : world)
    (o : flow Z) (w' : world) :
  NoDup (map fst funcs) ->
  attach_loop env funcs ignored w = (o, w') ->
  (forall pos,
      select_fn pos =
      if in_range pos then nth_error probe_table (Z.to_nat (pos - 1))
      else None) /\
  exists tr,
    trace w' = trace w ++ tr /\
    forall before name pos after,
      funcs = before ++ (name, pos) :: after ->
      (in_range pos = false -> attempts_on name tr = []) /\
      (in_range pos = true ->
       exists fn,
         nth_error probe_table (Z.to_nat (pos - 1)) = Some fn /\
         attempts_on name tr =
         if reached env w before then [(name, fn)] else []).
Proof.
  intros Hnd H. split; [exact select_fn_table|].
  destruct (attach_loop_shape _ _ _ _ _ _ H)
    as (done & rest & tail & Hf & Ht & _ & _ & Ho).
  exists (flat_map (attach_block env) done ++ tail).
  split; [exact Ht|].
  assert (Hta : attempts tail = []).
  { apply (shape_tail_attempts Z o). destruct o; tauto. }
  intros before name pos after Hfuncs. split; intro R.
  - assert (Hnone : select_fn pos = None)
      by (apply select_fn_in_range; exact R).
    unfold attempts_on. rewrite attempts_app, Hta, app_nil_r, attempts_blocks.
    assert (Hin : In (name, pos) funcs)
      by (rewrite Hfuncs; apply in_or_app; right; left; reflexivity).
    rewrite Hf in Hin, Hnd. rewrite map_app in Hnd.
    apply in_app_or in Hin. destruct Hin as [Hin|Hin].
    + rewrite (wanted_on_present name pos done
                 (NoDup_app_remove_r _ _ Hnd) Hin), Hnone.
      reflexivity.
    + apply wanted_on_absent. intro Hd.
      apply (in_map fst) in Hin. simpl in Hin.
      revert Hd Hin. clear - Hnd. revert Hnd.
      induction (map fst done) as [|x l IH]; simpl; intros Hnd Hd Hin.
      * contradiction.
      * inversion Hnd; subst. destruct Hd as [->|Hd].
        -- match goal with N : ~ In _ _ |- _ => apply N end.
           apply in_or_app. right. exact Hin.
        -- eapply IH; eauto.
  - pose proof (select_fn_table pos) as T. rewrite R in T.
    destruct (nth_error probe_table (Z.to_nat (pos - 1))) as [fn|] eqn:N.
    + exists fn. split; [reflexivity|].
      pose proof (attach_loop_reached _ _ _ _ _ _ H Hnd before name pos
                    after fn Hfuncs T) as E.
      rewrite Ht, attempts_on_app in E.
      exact (app_inv_head _ _ _ E).
    + exfalso. unfold in_range in R. apply andb_true_iff in R.
      destruct R as [R1 R2]. apply Z.leb_le in R1, R2.
      assert (C : pos = 1 \/ pos = 2 \/ pos = 3 \/ pos = 4 \/ pos = 5)
        by lia.
      destruct C as [->|[->|[->|[->| ->]]]]; discriminate.
Qed.


(** ** Whole runs *)

Lemma run_defers_trace (ds : list deferred) (w : world) :
  trace (run_defers ds w) = trace w ++ map ARun ds.
Proof.
  revert w. induction ds as [|d ds IH]; intro w; simpl.
  - rewrite app_nil_r. reflexivity.
  - rewrite IH. simpl. rewrite <- app_assoc. reflexivity.
Qed.

Lemma map_ARun_quiet (ds : list deferred) :
  forallb is_quiet (map ARun ds) = true.
Proof. induction ds; simpl; auto. Qed.

Lemma consume_is_quiet (tr : list action) :
  forallb is_consume tr = true -> forallb is_quiet tr = true.
Proof.
  induction tr as [|a tr IH]; [reflexivity|].
  simpl. intro H. apply andb_true_iff in H. destruct H as [Ha Ht].
  rewrite (IH Ht). destruct a; try discriminate; reflexivity.
Qed.

Lemma consume_released (tr : list action) :
  forallb is_consume tr = true -> released tr = [].
Proof.
  induction tr as [|a tr IH]; [reflexivity|].
  simpl. intro H. apply andb_true_iff in H. destruct H as [Ha Ht].
  rewrite (IH Ht). destruct a; try discriminate; reflexivity.
Qed.

Lemma run_main_cases (event_size : nat) (env : Env) :
  (exists tr,
      run_main event_size env = (Exited 1, tr) /\
      forallb is_quiet tr = true /\ released tr = []) \/
  (exists funcs oa wa st post,
      GetFuncs env = inl funcs /\
      attach_loop env funcs 0 (w_attach env funcs) = (oa, wa) /\
      run_main event_size env = (st, trace wa ++ post) /\
      forallb is_quiet post = true /\
      (st = Exited 0 -> released post = released (map ARun (defers wa))) /\
      (st <> Exited 0 -> released post = []) /\
      (oa = Return -> st = Exited 0) /\
      (oa = Exit1 -> st = Exited 1)).
Proof.
  unfold run_main, main, bind, call, must, go_defer, log_Fatalf, ret.
  destruct (setrlimit_nofile env);
    [left; simpl; eexists; repeat split; reflexivity|].
  destruct (setrlimit_memlock env);
    [left; simpl; eexists; repeat split; reflexivity|].
  destruct (GetFuncs env) as [funcs|e];
    [|left; simpl; eexists; repeat split; reflexivity].
  destruct (GetAddrs env);
    [left; simpl; eexists; repeat split; reflexivity|].
  destruct (LoadObjects env);
    [left; simpl; eexists; repeat split; reflexivity|].
  right. simpl.
  change (attach_loop env funcs 0 _)
    with (attach_loop env funcs 0 (w_attach env funcs)).
  destruct (attach_loop env funcs 0 (w_attach env funcs)) as [oa wa] eqn:Ha.
  exists funcs, oa, wa.
  destruct oa as [ign| | |].
  - destruct (NewReader env) as [e|].
    + simpl. exists (Exited 1). eexists. split; [reflexivity|].
      split; [exact Ha|]. rewrite <- !app_assoc. simpl.
      split; [reflexivity|].
      repeat split; try reflexivity; try discriminate; congruence.
    + simpl.
      match goal with
      | |- context [consume_loop env event_size (rd_Read env) ?w0] =>
          pose proof (consume_loop_outcome env event_size (rd_Read env) w0)
            as Ho;
          destruct (consume_loop_shape env event_size (rd_Read env) w0)
            as (tr & Ht & Hd & Hc & _);
          destruct (consume_loop env event_size (rd_Read env) w0)
            as [oc wc]
      end.
      simpl in Ho, Ht, Hd. subst oc.
      rewrite <- !app_assoc in Ht. simpl in Ht.
      destruct (existsb read_closed (rd_Read env)).
      * exists (Exited 0). eexists. split; [reflexivity|].
        split; [exact Ha|]. rewrite run_defers_trace, Ht, Hd.
        rewrite <- !app_assoc. simpl. split; [reflexivity|].
        assert (Hq : forall l, forallb is_quiet (tr ++ l) = forallb is_quiet l)
          by (intro l; rewrite forallb_app, (consume_is_quiet tr Hc);
              reflexivity).
        assert (Hr : forall l, released (tr ++ l) = released l)
          by (intro l; rewrite released_app, (consume_released tr Hc);
              reflexivity).
        change (forallb is_quiet (_ :: _ :: _ :: _ :: _ :: tr ++ ?l))
          with (forallb is_quiet (tr ++ l)).
        change (released (_ :: _ :: _ :: _ :: _ :: tr ++ ?l))
          with (released (tr ++ l)).
        rewrite Hq, Hr. simpl forallb. rewrite map_ARun_quiet.
        repeat split; try reflexivity; try discriminate; congruence.
      * exists Running. eexists. split; [reflexivity|].
        split; [exact Ha|]. rewrite Ht.
        split; [reflexivity|].
        change (forallb is_quiet (_ :: _ :: _ :: _ :: _ :: tr))
          with (forallb is_quiet tr).
        change (released (_ :: _ :: _ :: _ :: _ :: tr)) with (released tr).
        rewrite (consume_is_quiet tr Hc), (consume_released tr Hc).
        repeat split; try reflexivity; try discriminate; congruence.
  - exists (Exited 0). eexists. split; [reflexivity|].
    split; [exact Ha|]. rewrite run_defers_trace.
    split; [reflexivity|]. rewrite map_ARun_quiet.
    repeat split; try reflexivity; try discriminate; congruence.
  - exists (Exited 1), []. split; [reflexivity|].
    split; [exact Ha|]. rewrite app_nil_r.
    repeat split; try reflexivity; try discriminate; congruence.
  - exfalso.
    destruct (attach_loop_shape _ _ _ _ _ _ Ha)
      as (done & rest & tail & _ & _ & _ & _ & F).
    exact F.
Qed.

Lemma quiet_facts (l : list action) :
  forallb is_quiet l = true ->
  attempts l = [] /\ attached l = [] /\ filter is_config l = [] /\
  forall b, ~ In (ASelectAttach b) l.
Proof.
  induction l as [|a l IH]; intro H.
  - simpl. auto.
  - simpl in H. apply andb_true_iff in H. destruct H as [Ha Hl].
    destruct (IH Hl) as (I1 & I2 & I3 & I4).
    destruct a; try discriminate; simpl; rewrite ?I1, ?I2, ?I3;
      (repeat split; auto; intros b [E|E]; [discriminate|exact (I4 b E)]).
Qed.

Lemma attempt_in_trace (pre post : list action) (a : action) :
  is_attempt a = true -> attempts (pre ++ a :: post) <> [].
Proof.
  intros Ha H. rewrite attempts_app in H.
  apply app_eq_nil in H. destruct H as [_ H].
  destruct a; try discriminate.
Qed.

(** An attempt of [l1 ++ l2] lies in [l2] when [l1] has none. *)
Lemma split_at_attempt (l1 l2 pre post : list action) (a : action) :
  l1 ++ l2 = pre ++ a :: post ->
  attempts l1 = [] -> is_attempt a = true ->
  exists m, pre = l1 ++ m /\ l2 = m ++ a :: post.
Proof.
  revert pre. induction l1 as [|x l1 IH]; intros pre H Hn Ha.
  - exists pre. auto.
  - destruct pre as [|y pre].
    + simpl in H. inversion H; subst.
      destruct a; try discriminate.
    + simpl in H. inversion H; subst.
      assert (Hn' : attempts l1 = []).
      { change (attempts (y :: l1)) with (attempts ([y] ++ l1)) in Hn.
        rewrite attempts_app in Hn. apply app_eq_nil in Hn. tauto. }
      destruct (IH pre H2 Hn' Ha) as (m & -> & ->).
      exists m. auto.
Qed.

Lemma blocks_facts (env : Env) (l : list (string * Z)) :
  filter is_config (flat_map (attach_block env) l) = [] /\
  released (flat_map (attach_block env) l) = [] /\
  ~ In (ASelectAttach true) (flat_map (attach_block env) l).
Proof.
  induction l as [|e l (I1 & I2 & I3)]; simpl.
  - auto.
  - rewrite filter_app, released_app, I1, I2.
    unfold attach_block. destruct (select_fn (snd e)); simpl.
    + repeat split; auto.
      intros [E|[E|[E|E]]]; try discriminate. exact (I3 E).
    + auto.
Qed.

(** In the blocks of the loop every attempt comes right after a
    [select] that found the context not cancelled. *)
Lemma blocks_polled (env : Env) (l : list (string * Z))
    (rest m post : list action) (a : action) :
  flat_map (attach_block env) l ++ rest = m ++ a :: post ->
  attempts rest = [] -> is_attempt a = true ->
  exists m', m = m' ++ [ASelectAttach false].
Proof.
  revert m. induction l as [|e l IH]; intros m H Hr Ha.
  - simpl in H. exfalso. rewrite H in Hr.
    exact (attempt_in_trace m post a Ha Hr).
  - simpl in H. unfold attach_block in H at 1.
    destruct (select_fn (snd e)) as [fn|]; [|exact (IH m H Hr Ha)].
    simpl in H.
    destruct m as [|x1 [|x2 [|x3 m]]]; simpl in H; inversion H; subst.
    + discriminate.
    + exists []. reflexivity.
    + discriminate.
    + destruct (IH m H4 Hr Ha) as [m' ->].
      exists (ASelectAttach false
              :: AKprobe (fst e) fn (link_Kprobe env (fst e) fn)
              :: ABarIncrement :: m').
      reflexivity.
Qed.

(** C7.  In every run, whatever the environment, each attachment attempt
    comes after the call that writes the filter configuration (made with
    the parsed flags), and that call is made at most once. *)
Theorem filter_config_written_before_first_attempt
    (event_size : nat) (env : Env) :
  (forall pre a post,
      snd (run_main event_size env) = pre ++ a :: post ->
      is_attempt a = true ->
      In (AConfigBPFMap (flag_Parse (argv env))) pre) /\
  (List.length (filter is_config (snd (run_main event_size env))) <= 1)%nat.
Proof.
  destruct (run_main_cases event_size env)
    as [(tr & -> & Hq & _)
       |(funcs & oa & wa & st & post & _ & Ha & -> & Hq & _)].
  - destruct (quiet_facts tr Hq) as (Q1 & _ & Q3 & _). simpl. split.
    + intros pre a post E Hatt. exfalso. rewrite E in Q1.
      exact (attempt_in_trace pre post a Hatt Q1).
    + rewrite Q3. simpl. lia.
  - destruct (quiet_facts post Hq) as (Q1 & _ & Q3 & _).
    destruct (attach_loop_shape _ _ _ _ _ _ Ha)
      as (done & rest & tail & _ & Ht & _ & _ & Ho).
    assert (Htail : attempts tail = [] /\ attached tail = [] /\
                    released tail = [] /\ filter is_config tail = []).
    { apply (shape_tail_attempts Z oa). destruct oa; tauto. }
    destruct Htail as (T1 & _ & _ & T4).
    destruct (blocks_facts env done) as (B1 & _ & _).
    simpl. rewrite Ht. simpl trace. split.
    + intros pre a post' E Hatt. rewrite <- app_assoc in E.
      destruct (split_at_attempt _ _ _ _ _ E eq_refl Hatt) as (m & -> & _).
      apply in_or_app. left. simpl. tauto.
    + rewrite !filter_app, B1, T4, Q3. simpl. lia.
Qed.

(** ** Cancellation during attachment *)

(** Once the context is cancelled the loop makes no attempt. *)
Lemma attach_cancelled_no_attempt (env : Env) (funcs : list (string * Z))
    (ignored : Z) (w : world) (o : flow Z) (w' : world) :
  ctx_Done env w = true ->
  attach_loop env funcs ignored w = (o, w') ->
  exists tr, trace w' = trace w ++ tr /\ attempts tr = [].
Proof.
  intro Hc.
  functional induction (attach_loop env funcs ignored w); intro H;
    try congruence.
  - inversion H; subst. exists []. rewrite app_nil_r. auto.
  - exact (IHp Hc H).
  - inversion H; subst. exists [ASelectAttach true]. auto.
Qed.

Lemma attempts_skipn_nil (n : nat) (l : list action) :
  attempts l = [] -> attempts (skipn n l) = [].
Proof.
  revert n. induction l as [|a l IH]; intros n H.
  - destruct n; reflexivity.
  - destruct n; [exact H|]. simpl. apply IH.
    change (attempts (a :: l)) with (attempts ([a] ++ l)) in H.
    rewrite attempts_app in H. apply app_eq_nil in H. tauto.
Qed.

Lemma skipn_past (s : nat) (l l' : list action) :
  (List.length l < s)%nat ->
  skipn s (l ++ l') = skipn (s - List.length l) l'.
Proof.
  intro H. rewrite skipn_app, skipn_all2 by lia. reflexivity.
Qed.

(** If the context is cancelled while the loop runs, at most one attempt
    starts afterwards. *)
Lemma attach_late_attempts (env : Env) (funcs : list (string * Z))
    (ignored : Z) (w : world) (o : flow Z) (w' : world) (s : nat) :
  cancelled_at env = Some s ->
  (List.length (trace w) < s)%nat ->
  attach_loop env funcs ignored w = (o, w') ->
  (List.length (attempts (skipn s (trace w'))) <= 1)%nat.
Proof.
  intro Hs.
  functional induction (attach_loop env funcs ignored w); intros Hlt H.
  - inversion H; subst. rewrite skipn_all2 by lia. simpl. lia.
  - exact (IHp Hlt H).
  - unfold ctx_Done in *. rewrite Hs in *.
    match goal with E : (_ <=? _)%nat = true |- _ =>
      apply Nat.leb_le in E end. lia.
  - inversion H; subst. simpl trace. rewrite <- !app_assoc. simpl.
    rewrite skipn_past by exact Hlt.
    destruct (s - List.length (trace w))%nat as [|[|[|[|k]]]] eqn:E;
      try lia; simpl; try lia.
    rewrite skipn_nil. simpl. lia.
  - destruct (Nat.ltb_spec
                (List.length
                   (trace (emit ABarIncrement
                             (emit (AKprobe name fn (Some err))
                                (emit (ASelectAttach false) w))))) s)
      as [L|L]; [exact (IHp L H)|].
    assert (Hd : ctx_Done env
                   (emit ABarIncrement
                      (emit (AKprobe name fn (Some err))
                         (emit (ASelectAttach false) w))) = true)
      by (unfold ctx_Done; rewrite Hs; apply Nat.leb_le; exact L).
    destruct (attach_cancelled_no_attempt _ _ _ _ _ _ Hd H)
      as (tr & -> & Hn).
    simpl trace in *. rewrite <- !app_assoc in *. simpl in *.
    rewrite !length_app in L. simpl in L.
    rewrite skipn_past by exact Hlt.
    destruct (s - List.length (trace w))%nat as [|[|[|[|k]]]] eqn:E;
      try lia; simpl; rewrite ?Hn; simpl; lia.
  - destruct (Nat.ltb_spec
                (List.length
                   (trace (defer (d_kp_Close name)
                             (emit ABarIncrement
                                (emit (AKprobe name fn None)
                                   (emit (ASelectAttach false) w)))))) s)
      as [L|L]; [exact (IHp L H)|].
    assert (Hd : ctx_Done env
                   (defer (d_kp_Close name)
                      (emit ABarIncrement
                         (emit (AKprobe name fn None)
                            (emit (ASelectAttach false) w)))) = true)
      by (unfold ctx_Done; rewrite Hs; apply Nat.leb_le; exact L).
    destruct (attach_cancelled_no_attempt _ _ _ _ _ _ Hd H)
      as (tr & -> & Hn).
    simpl trace in *. rewrite <- !app_assoc in *. simpl in *.
    rewrite !length_app in L. simpl in L.
    rewrite skipn_past by exact Hlt.
    destruct (s - List.length (trace w))%nat as [|[|[|[|k]]]] eqn:E;
      try lia; simpl; rewrite ?Hn; simpl; lia.
Qed.

Lemma attached_blocks_in (env : Env) (l : list (string * Z)) (x : string) :
  In x (attached (flat_map (attach_block env) l)) -> In x (map fst l).
Proof.
  induction l as [|e l IH]; simpl; [tauto|].
  rewrite attached_app. intro H. apply in_app_or in H.
  destruct H as [H|H]; [|right; exact (IH H)].
  left. unfold attach_block in H.
  destruct (select_fn (snd e)); [|contradiction].
  simpl in H. destruct (link_Kprobe env (fst e) p); simpl in H; tauto.
Qed.

Lemma attached_blocks_NoDup (env : Env) (l : list (string * Z)) :
  NoDup (map fst l) -> NoDup (attached (flat_map (attach_block env) l)).
Proof.
  induction l as [|e l IH]; simpl; intro H; [constructor|].
  inversion H as [|? ? Hnotin Hnd]; subst.
  rewrite attached_app. unfold attach_block at 1.
  destruct (select_fn (snd e)); [|exact (IH Hnd)].
  simpl. destruct (link_Kprobe env (fst e) p); simpl; [exact (IH Hnd)|].
  constructor; [|exact (IH Hnd)].
  intro Hin. apply Hnotin. exact (attached_blocks_in env l _ Hin).
Qed.

Lemma released_map_ARun (l : list string) (ds : list deferred) :
  released (map ARun (map d_kp_Close l ++ ds)) =
  l ++ released (map ARun ds).
Proof.
  induction l as [|x l IH]; simpl; [reflexivity|].
  rewrite <- IH. reflexivity.
Qed.

(** X15.  In every run over a catalog (distinct names), each attachment
    attempt comes right after a [select] that found the context not
    cancelled, so the signal is polled between any two attempts; if the
    context is cancelled when [s] calls have been made, at most one
    attempt is made from then on; and when the [select] finds the
    context cancelled the process exits with status 0.  Whenever the
    process exits with status 0, each attached probe has been released
    exactly once. *)
Theorem cancellation_polled_before_every_attempt
    (event_size : nat) (env : Env) :
  distinct_names env ->
  (forall pre a post,
      snd (run_main event_size env) = pre ++ a :: post ->
      is_attempt a = true ->
      exists pre', pre = pre' ++ [ASelectAttach false]) /\
  (forall s,
      cancelled_at env = Some s ->
      (List.length (attempts (skipn s (snd (run_main event_size env))))
       <= 1)%nat) /\
  (In (ASelectAttach true) (snd (run_main event_size env)) ->
   fst (run_main event_size env) = Exited 0) /\
  (fst (run_main event_size env) = Exited 0 ->
   forall name,
     In name (attached (snd (run_main event_size env))) ->
     count_occ string_dec (released (snd (run_main event_size env))) name
     = 1%nat).
Proof.
  intro Hnd.
  destruct (run_main_cases event_size env)
    as [(tr & -> & Hq & Hrel)
       |(funcs & oa & wa & st & post & Hg & Ha & -> & Hq & Hr0 & _ & Hret
         & _)].
  - destruct (quiet_facts tr Hq) as (Q1 & _ & _ & Q4). simpl.
    repeat split.
    + intros pre a post E Hatt. exfalso. rewrite E in Q1.
      exact (attempt_in_trace pre post a Hatt Q1).
    + intros s _. rewrite attempts_skipn_nil by exact Q1. simpl. lia.
    + intro H. exfalso. exact (Q4 true H).
    + discriminate.
  - destruct (quiet_facts post Hq) as (Q1 & Q2 & _ & Q4).
    destruct (attach_loop_shape _ _ _ _ _ _ Ha)
      as (done & rest & tail & Hf & Ht & Hd & _ & Ho).
    assert (Htail : attempts tail = [] /\ attached tail = [] /\
                    released tail = [] /\ filter is_config tail = []).
    { apply (shape_tail_attempts Z oa). destruct oa; tauto. }
    destruct Htail as (T1 & T2 & T3 & _).
    destruct (blocks_facts env done) as (_ & B2 & B3).
    simpl fst. simpl snd. repeat split.
    + intros pre a post' E Hatt. rewrite Ht in E. simpl trace in E.
      rewrite <- !app_assoc in E.
      destruct (split_at_attempt _ _ _ _ _ E eq_refl Hatt) as (m & -> & E').
      assert (Hn : attempts (tail ++ post) = [])
        by (rewrite attempts_app, T1, Q1; reflexivity).
      destruct (blocks_polled env done _ m post' a E' Hn Hatt) as [m' ->].
      exists (prelude env funcs ++ m'). rewrite app_assoc. reflexivity.
    + intros s Hs.
      rewrite skipn_app, attempts_app, length_app.
      rewrite (attempts_skipn_nil _ post Q1). simpl. rewrite Nat.add_0_r.
      destruct (Nat.ltb_spec (List.length (trace (w_attach env funcs))) s)
        as [L|L].
      * exact (attach_late_attempts _ _ _ _ _ _ s Hs L Ha).
      * assert (Hc : ctx_Done env (w_attach env funcs) = true)
          by (unfold ctx_Done; rewrite Hs; apply Nat.leb_le; exact L).
        destruct (attach_cancelled_no_attempt _ _ _ _ _ _ Hc Ha)
          as (tr & E & Hn).
        rewrite attempts_skipn_nil; [simpl; lia|].
        rewrite E, attempts_app, Hn. reflexivity.
    + intro Hin. apply Hret.
      rewrite Ht in Hin. simpl trace in Hin.
      apply in_app_or in Hin. destruct Hin as [Hin|Hin];
        [|exfalso; exact (Q4 true Hin)].
      apply in_app_or in Hin. destruct Hin as [Hin|Hin].
      { exfalso. simpl in Hin.
        repeat (destruct Hin as [Hin|Hin]; [discriminate|]). exact Hin. }
      apply in_app_or in Hin. destruct Hin as [Hin|Hin];
        [exfalso; exact (B3 Hin)|].
      destruct oa; try reflexivity.
      * destruct Ho as [_ ->]. contradiction.
      * destruct Ho as (n & e & ->). simpl in Hin.
        destruct Hin as [Hin|[]]. discriminate.
      * contradiction.
    + intros Hst name Hin.
      rewrite released_app, (Hr0 Hst), Hd.
      rewrite released_map_ARun. simpl released at 2.
      rewrite Ht. simpl trace.
      rewrite !released_app, B2, T3. simpl. rewrite app_nil_r.
      rewrite count_occ_rev.
      rewrite Ht in Hin. simpl trace in Hin.
      rewrite !attached_app, T2, Q2 in Hin. simpl in Hin.
      rewrite !app_nil_r in Hin.
      assert (Hn : NoDup (attached (flat_map (attach_block env) done))).
      { apply attached_blocks_NoDup. unfold distinct_names in Hnd.
        rewrite Hg, Hf, map_app in Hnd.
        exact (NoDup_app_remove_r _ _ Hnd). }
      exact (proj1 (NoDup_count_occ' string_dec _) Hn name Hin).
Qed.

(** ** Cancellation followed by a fatal attachment failure *)

(** C2.  On [cancelled_then_failed_run] the context is cancelled when 12
    calls have been made, while the second attempt is under way.  One
    attempt is made from then on, as the claim allows; it fails with an
    error other than [os.ErrNotExist], the process exits with status 1
    through [log.Fatalf], and the probe attached to [ip_rcv] before the
    halt is never released. *)
Theorem cancellation_then_fatal_failure_releases_nothing
    (event_size : nat) :
  cancelled_at cancelled_then_failed_run = Some 12%nat /\
  attempts (firstn 12 (snd (run_main event_size cancelled_then_failed_run)))
    = [("ip_rcv"%string, kprobe1)] /\
  attempts (skipn 12 (snd (run_main event_size cancelled_then_failed_run)))
    = [("tcp_v4_rcv"%string, kprobe1)] /\
  fst (run_main event_size cancelled_then_failed_run) = Exited 1 /\
  attached (snd (run_main event_size cancelled_then_failed_run))
    = ["ip_rcv"%string] /\
  released (snd (run_main event_size cancelled_then_failed_run)) = [].
Proof. repeat split; reflexivity. Qed.

(** ** A fatal attachment failure *)

(** C1.  On [hard_failure_run] the attach loop stops at the failing
    attempt and the process exits with status 1 through [log.Fatalf];
    the probe attached to [ip_rcv] is never released.  On
    [cancelled_run], which leaves through [return], it is. *)
Theorem fatal_attach_failure_releases_nothing (event_size : nat) :
  fst (run_main event_size hard_failure_run) = Exited 1 /\
  attempts (snd (run_main event_size hard_failure_run)) =
    [("ip_rcv"%string, kprobe1); ("tcp_v4_rcv"%string, kprobe1)] /\
  attached (snd (run_main event_size hard_failure_run)) = ["ip_rcv"%string] /\
  released (snd (run_main event_size hard_failure_run)) = [] /\
  fst (run_main event_size cancelled_run) = Exited 0 /\
  attached (snd (run_main event_size cancelled_run)) = ["ip_rcv"%string] /\
  released (snd (run_main event_size cancelled_run)) = ["ip_rcv"%string].
Proof. repeat split; reflexivity. Qed.

(** ** Flags *)

Lemma unset_filter_kept (k : filter_flag) (l : list flag_arg) (f : Flags) :
  forallb (fun a => negb (sets_filter k a)) l = true ->
  filter_value k (fold_left set_flag l f) = filter_value k f.
Proof.
  revert f. induction l as [|a l IH]; intros f H; [reflexivity|].
  simpl in H. apply andb_true_iff in H. destruct H as [Ha Hl].
  simpl. rewrite (IH _ Hl).
  destruct k, a; try discriminate; reflexivity.
Qed.

(** The flags of a command line without [--filter-mark] and of the same
    command line with [--filter-mark 0] cannot be told apart. *)
Lemma unset_mark_is_mark_zero :
  ~ (exists observe : Flags -> bool,
        observe (flag_Parse []) <> observe (flag_Parse [filter_mark 0])).
Proof. intros [observe H]. apply H. reflexivity. Qed.

(** C6, amended.  A filter flag that the command line does not set
    reaches [ConfigBPFMap] with its default, 0 for the mark and the
    empty string for the others; passing that value explicitly gives the
    same flags, so whatever is made of an unset flag is made of an
    explicit zero or empty value too. *)
Theorem unset_filter_flag_is_its_default
    (k : filter_flag) (l : list flag_arg) :
  forallb (fun a => negb (sets_filter k a)) l = true ->
  filter_value k (flag_Parse l) =
    match k with FFMark => inl 0 | _ => inr EmptyString end /\
  flag_Parse (l ++ [default_arg k]) = flag_Parse l.
Proof.
  intro H. unfold flag_Parse.
  pose proof (unset_filter_kept k l default_flags H) as E.
  split.
  - rewrite E. destruct k; reflexivity.
  - rewrite fold_left_app. simpl.
    destruct (fold_left set_flag l default_flags) as [m p si di sp dp r me t s].
    destruct k; simpl in E; inversion E; subst; reflexivity.
Qed.

(** ** The event pipeline *)

(** C8.  Over the reads the loop gets through (those before the first
    closed one), each read reporting a non-zero number of lost samples
    is logged with that number, in order, so the logged counts add up to
    the reported ones; there is one [rd.Read()] per record (nothing is
    read again), the loop never ends in [os.Exit(1)] and logs no fatal
    error, and every record without loss that is long enough is
    rendered, whatever came before it. *)
Theorem lost_samples_logged_and_loop_continues
    (env : Env) (event_size : nat)
    (reads : list (perf_Record * option error)) (w : world) :
  exists tr,
    trace (snd (consume_loop env event_size reads w)) = trace w ++ tr /\
    dropped_logged tr =
      filter (fun n => negb (n =? 0))
        (map (fun r => LostSamples (fst r)) (before_closed reads)) /\
    sum_Z (dropped_logged tr) =
      sum_Z (map (fun r => LostSamples (fst r)) (before_closed reads)) /\
    List.length (filter is_read tr) =
      (List.length (before_closed reads)
       + if existsb read_closed reads then 1 else 0)%nat /\
    fst (consume_loop env event_size reads w) <> Exit1 /\
    filter is_fatal tr = [] /\
    printed tr = flat_map (rendering event_size) (before_closed reads).
Proof.
  destruct (consume_loop_shape env event_size reads w)
    as (tr & Ht & _ & Hc & Hr & Hl & Hp).
  exists tr. repeat split; auto.
  - rewrite Hl. apply loss_line_filter.
  - rewrite Hl. apply loss_line_sum.
  - rewrite consume_loop_outcome.
    destruct (existsb read_closed reads); discriminate.
  - apply forallb_consume_not_fatal. exact Hc.
Qed.

(** A record longer than the event is not skipped: it is decoded from
    its first bytes and rendered, and no parse error is logged. *)
Lemma overlong_record_is_rendered :
  List.length (RawSample nine_bytes) <> 8%nat /\
  trace (snd (consume_loop idle_env 8 [(nine_bytes, None)] init)) =
    [ARead nine_bytes None;
     APrint [Byte.x01; Byte.x02; Byte.x03; Byte.x04; Byte.x05;
             Byte.x06; Byte.x07; Byte.x08];
     ASelectConsume false].
Proof. split; [discriminate|reflexivity]. Qed.

(** C9, amended.  A record shorter than the event (no loss reported, the
    read not closed) makes [binary.Read] fail: the error is logged, the
    record is not rendered, and the loop goes on with the next read, so
    that the records after it are rendered as usual. *)
Theorem short_record_logged_and_skipped
    (env : Env) (event_size : nat) (record : perf_Record)
    (err : option error) (rest : list (perf_Record * option error))
    (w : world) :
  (List.length (RawSample record) < event_size)%nat ->
  LostSamples record = 0 ->
  read_closed (record, err) = false ->
  exists e,
    binary_Read event_size (RawSample record) = inr e /\
    consume_loop env event_size ((record, err) :: rest) w =
      consume_loop env event_size rest
        (emit (ALog (LogParse e))
           (match err with
            | Some e' =>
                emit (ALog (LogReadErr e')) (emit (ARead record err) w)
            | None => emit (ARead record err) w
            end)) /\
    printed (trace (snd (consume_loop env event_size
                           ((record, err) :: rest) w))) =
      printed (trace w)
      ++ flat_map (rendering event_size) (before_closed rest).
Proof.
  intros Hlen Hlost Hclosed.
  destruct (binary_Read_short event_size (RawSample record) Hlen) as [e He].
  exists e. split; [exact He|].
  assert (Hh : forall w0,
             handle_record env event_size record w0 =
             emit (ALog (LogParse e)) w0).
  { intro w0. unfold handle_record. rewrite Hlost, He. reflexivity. }
  assert (Hstep :
            consume_loop env event_size ((record, err) :: rest) w =
            consume_loop env event_size rest
              (emit (ALog (LogParse e))
                 (match err with
                  | Some e' =>
                      emit (ALog (LogReadErr e')) (emit (ARead record err) w)
                  | None => emit (ARead record err) w
                  end))).
  { simpl. unfold read_closed in Hclosed. simpl in Hclosed.
    destruct err as [e'|]; [rewrite Hclosed|]; rewrite Hh; reflexivity. }
  split; [exact Hstep|].
  rewrite Hstep.
  match goal with
  | |- context [consume_loop env event_size rest ?w0] =>
      destruct (consume_loop_shape env event_size rest w0)
        as (tr & Ht & _ & _ & _ & _ & Hp)
  end.
  rewrite Ht, printed_app, Hp.
  destruct err; simpl trace; rewrite !printed_app; simpl;
    rewrite !app_nil_r; reflexivity.
Qed.

(** C10.  How the consume loop ends does not depend on the cancellation
    signal: it returns exactly when a read returns the closed error and
    is otherwise still reading; with any other cancellation time
    (also when the context is cancelled from the start, so that every
    [select] of line 197 takes the [break]) the outcome, the number of
    reads and the events rendered are the same. *)
Theorem select_break_does_not_end_consume_loop
    (env : Env) (event_size : nat)
    (reads : list (perf_Record * option error)) (w : world)
    (c : option nat) :
  fst (consume_loop env event_size reads w) =
    (if existsb read_closed reads then Return else Blocked) /\
  fst (consume_loop (with_cancel c env) event_size reads w) =
    fst (consume_loop env event_size reads w) /\
  exists tr trc,
    trace (snd (consume_loop env event_size reads w)) = trace w ++ tr /\
    trace (snd (consume_loop (with_cancel c env) event_size reads w)) =
      trace w ++ trc /\
    List.length (filter is_read trc) = List.length (filter is_read tr) /\
    List.length (filter is_read tr) =
      (List.length (before_closed reads)
       + if existsb read_closed reads then 1 else 0)%nat /\
    printed trc = printed tr /\
    printed tr = flat_map (rendering event_size) (before_closed reads).
Proof.
  split; [apply consume_loop_outcome|].
  split; [rewrite !consume_loop_outcome; reflexivity|].
  destruct (consume_loop_shape env event_size reads w)
    as (tr & Ht & _ & _ & Hr & _ & Hp).
  destruct (consume_loop_shape (with_cancel c env) event_size reads w)
    as (trc & Htc & _ & _ & Hrc & _ & Hpc).
  exists tr, trc. repeat split; congruence.
Qed.

(** The context cancelled before the loop starts: the [select] after the
    first record finds it cancelled, and the loop still reads and
    renders the second record. *)
Example cancelled_consume_loop_keeps_reading :
  consume_loop (with_cancel (Some 0%nat) idle_env) 8
    [(nine_bytes, None); (nine_bytes, None)] init =
  (Blocked,
   {| trace :=
        [ARead nine_bytes None;
         APrint [Byte.x01; Byte.x02; Byte.x03; Byte.x04; Byte.x05;
                 Byte.x06; Byte.x07; Byte.x08];
         ASelectConsume true;
         ARead nine_bytes None;
         APrint [Byte.x01; Byte.x02; Byte.x03; Byte.x04; Byte.x05;
                 Byte.x06; Byte.x07; Byte.x08];
         ASelectConsume true];
      defers := [] |}).
Proof. reflexivity. Qed.

(** ** The theorems at concrete runs *)

Lemma skewed_names_distinct : NoDup (map fst skewed_catalog).
Proof.
  repeat constructor; simpl; intuition discriminate.
Defined.

Lemma attached_plus_ignored_is_catalog_size_witness :
  exists tr,
    trace (snd (attach_loop skewed_run skewed_catalog 0 init)) =
      trace init ++ tr /\
    Z.of_nat (List.length (attached tr)) + 2 = 3.
Proof.
  destruct (attached_plus_ignored_is_catalog_size skewed_run skewed_catalog
              init 2 (snd (attach_loop skewed_run skewed_catalog 0 init)))
    as (tr & Ht & Hc & _).
  - vm_compute. discriminate.
  - reflexivity.
  - exists tr. split; [exact Ht|exact Hc].
Defined.

Lemma entry_attempted_once_when_reached_witness :
  exists tr,
    trace (snd (attach_loop skewed_run skewed_catalog 0 init)) =
      trace init ++ tr /\
    attempts_on "kfree_skb_list" tr = [] /\
    attempts_on "tcp_gone" tr = [("tcp_gone"%string, kprobe2)].
Proof.
  destruct (entry_attempted_once_when_reached skewed_run skewed_catalog 0
              init
              (fst (attach_loop skewed_run skewed_catalog 0 init))
              (snd (attach_loop skewed_run skewed_catalog 0 init))
              skewed_names_distinct eq_refl) as (_ & tr & Ht & Hall).
  exists tr. split; [exact Ht|]. split.
  - exact (proj1 (Hall [("ip_rcv"%string, 1)] "kfree_skb_list"%string 7
                    [("tcp_gone"%string, 2)] eq_refl) eq_refl).
  - destruct (proj2 (Hall [("ip_rcv"%string, 1);
                           ("kfree_skb_list"%string, 7)]
                       "tcp_gone"%string 2 [] eq_refl) eq_refl)
      as (fn & Hfn & Hatt).
    inversion Hfn; subst fn. exact Hatt.
Defined.


Lemma filter_config_written_before_first_attempt_witness :
  In (AConfigBPFMap (flag_Parse (argv cancelled_run)))
    (firstn 9 (snd (run_main 8 cancelled_run))).
Proof.
  apply (proj1 (filter_config_written_before_first_attempt 8 cancelled_run)
           (firstn 9 (snd (run_main 8 cancelled_run)))
           (AKprobe "ip_rcv" kprobe1 None)
           (skipn 10 (snd (run_main 8 cancelled_run))));
    reflexivity.
Defined.

Lemma cancelled_names_distinct : distinct_names cancelled_run.
Proof.
  unfold distinct_names. simpl.
  repeat constructor; simpl; intuition discriminate.
Defined.

Lemma cancellation_polled_before_every_attempt_witness :
  fst (run_main 8 cancelled_run) = Exited 0 /\
  count_occ string_dec (released (snd (run_main 8 cancelled_run)))
    "ip_rcv"%string
  = 1%nat.
Proof.
  destruct (cancellation_polled_before_every_attempt 8 cancelled_run
              cancelled_names_distinct) as (_ & _ & H3 & H4).
  assert (E : fst (run_main 8 cancelled_run) = Exited 0).
  { apply H3. simpl. repeat (first [left; reflexivity | right]). }
  split; [exact E|].
  apply (H4 E). simpl. left. reflexivity.
Defined.

Lemma unset_filter_flag_is_its_default_witness :
  filter_value FFMark (flag_Parse [filter_proto "tcp"; output_meta true])
  = inl 0 /\
  flag_Parse ([filter_proto "tcp"; output_meta true] ++ [filter_mark 0])
  = flag_Parse [filter_proto "tcp"; output_meta true].
Proof.
  exact (unset_filter_flag_is_its_default FFMark
           [filter_proto "tcp"; output_meta true] eq_refl).
Defined.

Lemma short_record_logged_and_skipped_witness :
  exists e,
    binary_Read 8 (RawSample three_bytes) = inr e /\
    printed (trace (snd (consume_loop idle_env 8
                           [(three_bytes, None); (nine_bytes, None)] init)))
    = [firstn 8 (RawSample nine_bytes)].
Proof.
  destruct (short_record_logged_and_skipped idle_env 8 three_bytes None
              [(nine_bytes, None)] init) as (e & He & _ & Hp).
  - simpl. repeat constructor.
  - reflexivity.
  - reflexivity.
  - exists e. split; [exact He|exact Hp].
Defined.

(* ================================================================= *)
(** * Further properties of [main] *)

(** ** Traces made of one kind of call *)

Lemma filter_none (P Q : action -> bool) (l : list action) :
  forallb P l = true ->
  (forall a, P a = true -> Q a = false) ->
  filter Q l = [].
Proof.
  intros H HPQ. induction l as [|a l IH]; [reflexivity|].
  simpl in H. apply andb_true_iff in H. destruct H as [Ha Hl].
  simpl. rewrite (HPQ a Ha). exact (IH Hl).
Qed.

Lemma flat_map_none (B : Type) (P : action -> bool)
    (f : action -> list B) (l : list action) :
  forallb P l = true ->
  (forall a, P a = true -> f a = []) ->
  flat_map f l = [].
Proof.
  intros H HPf. induction l as [|a l IH]; [reflexivity|].
  simpl in H. apply andb_true_iff in H. destruct H as [Ha Hl].
  simpl. rewrite (HPf a Ha). exact (IH Hl).
Qed.

Lemma existsb_filter (Q : action -> bool) (l : list action) :
  filter Q l = [] -> existsb Q l = false.
Proof.
  induction l as [|a l IH]; [reflexivity|].
  simpl. destruct (Q a); [discriminate|]. exact IH.
Qed.

Lemma blocks_are_blocks (env : Env) (l : list (string * Z)) :
  forallb is_block (flat_map (attach_block env) l) = true.
Proof.
  induction l as [|e l IH]; [reflexivity|].
  simpl. rewrite forallb_app, IH, andb_true_r.
  unfold attach_block. destruct (select_fn (snd e)); reflexivity.
Qed.

Lemma deferred_run_app (l l' : list action) :
  deferred_run (l ++ l') = deferred_run l ++ deferred_run l'.
Proof. apply flat_map_app. Qed.

Lemma deferred_run_map (ds : list deferred) :
  deferred_run (map ARun ds) = ds.
Proof. induction ds as [|d ds IH]; simpl; [|rewrite IH]; reflexivity. Qed.

(** ** The runs of [main], case by case *)

Lemma w_consume_trace (ignored : Z) (wa : world) :
  trace (w_consume ignored wa) =
  trace wa ++
  [ABarFinish; APrintAttached ignored; ANewReader; ALog LogListening;
   APrintHeader].
Proof. simpl. rewrite <- !app_assoc. reflexivity. Qed.

Lemma w_consume_defers (ignored : Z) (wa : world) :
  defers (w_consume ignored wa) = d_rd_Close :: defers wa.
Proof. reflexivity. Qed.

Lemma run_main_shape (event_size : nat) (env : Env) :
  ((setrlimit_nofile env <> None \/ setrlimit_memlock env <> None \/
    (exists e, GetFuncs env = inr e) \/ GetAddrs env <> None \/
    LoadObjects env <> None) /\
   exists pre m,
     run_main event_size env = (Exited 1, pre ++ [AFatal m]) /\
     forallb is_startup pre = true) \/
  (exists funcs oa wa,
      startup_ok env funcs /\
      attach_loop env funcs 0 (w_attach env funcs) = (oa, wa) /\
      run_main event_size env =
      match oa with
      | Return => (Exited 0, trace wa ++ map ARun (defers wa))
      | Exit1 => (Exited 1, trace wa)
      | Blocked => (Running, trace wa)
      | Next ign =>
          match NewReader env with
          | Some e =>
              (Exited 1,
               trace wa ++
               [ABarFinish; APrintAttached ign; ANewReader;
                AFatal (FatalNewReader e)])
          | None =>
              if existsb read_closed (rd_Read env) then
                (Exited 0,
                 trace (snd (consume_loop env event_size (rd_Read env)
                               (w_consume ign wa)))
                 ++ map ARun (d_rd_Close :: defers wa))
              else
                (Running,
                 trace (snd (consume_loop env event_size (rd_Read env)
                               (w_consume ign wa))))
          end
      end).
Proof.
  unfold run_main, main, bind, call, must, go_defer, log_Fatalf, ret,
    startup_ok.
  destruct (setrlimit_nofile env) as [e|].
  { left. split; [left; discriminate|].
    exists [ASetrlimit true], (FatalRlimitNofile e). auto. }
  destruct (setrlimit_memlock env) as [e|].
  { left. split; [right; left; discriminate|].
    exists [ASetrlimit true; ASetrlimit false], (FatalRlimitMemlock e).
    auto. }
  destruct (GetFuncs env) as [funcs|e].
  2:{ left. split; [right; right; left; eauto|].
      exists [ASetrlimit true; ASetrlimit false; AGetFuncs],
        (FatalGetFuncs e). auto. }
  destruct (GetAddrs env) as [e|].
  { left. split; [right; right; right; left; discriminate|].
    exists [ASetrlimit true; ASetrlimit false; AGetFuncs; AGetAddrs],
      (FatalGetAddrs e). auto. }
  destruct (LoadObjects env) as [e|].
  { left. split; [right; right; right; right; discriminate|].
    exists [ASetrlimit true; ASetrlimit false; AGetFuncs; AGetAddrs;
            ALoadObjects (OutputSkb (flag_Parse (argv env)))],
      (FatalLoadObjects e). auto. }
  right. simpl.
  change (attach_loop env funcs 0 _)
    with (attach_loop env funcs 0 (w_attach env funcs)).
  destruct (attach_loop env funcs 0 (w_attach env funcs)) as [oa wa] eqn:Ha.
  exists funcs, oa, wa.
  split; [repeat split; reflexivity|]. split; [exact Ha|].
  destruct oa as [ign| | |].
  - destruct (NewReader env) as [e|].
    + simpl. rewrite <- !app_assoc. reflexivity.
    + simpl.
      change (consume_loop env event_size (rd_Read env) _)
        with (consume_loop env event_size (rd_Read env) (w_consume ign wa)).
      pose proof (consume_loop_outcome env event_size (rd_Read env)
                    (w_consume ign wa)) as Ho.
      destruct (consume_loop_shape env event_size (rd_Read env)
                  (w_consume ign wa)) as (tr & _ & Hd & _).
      destruct (consume_loop env event_size (rd_Read env)
                  (w_consume ign wa)) as [oc wc].
      simpl in Ho, Hd. simpl snd. subst oc.
      destruct (existsb read_closed (rd_Read env)).
      * rewrite run_defers_trace, Hd. reflexivity.
      * reflexivity.
  - rewrite run_defers_trace. reflexivity.
  - reflexivity.
  - reflexivity.
Qed.

(** ** Accounting in the consume loop *)

Lemma parse_errors_app (l l' : list action) :
  parse_errors (l ++ l') = parse_errors l ++ parse_errors l'.
Proof. apply flat_map_app. Qed.

Lemma read_errors_app (l l' : list action) :
  read_errors (l ++ l') = read_errors l ++ read_errors l'.
Proof. apply flat_map_app. Qed.

Lemma filter_weaker (P Q : action -> bool) (l : list action) :
  (forall a, Q a = true -> P a = true) ->
  filter P l = [] -> filter Q l = [].
Proof.
  intro HQP. induction l as [|a l IH]; [reflexivity|].
  simpl. destruct (P a) eqn:Pa; [discriminate|]. intro H.
  destruct (Q a) eqn:Qa; [rewrite (HQP a Qa) in Pa; discriminate|].
  exact (IH H).
Qed.

Lemma handle_record_account (env : Env) (event_size : nat)
    (record : perf_Record) (w : world) :
  exists hr,
    trace (handle_record env event_size record w) = trace w ++ hr /\
    forallb is_consume hr = true /\
    (List.length (printed hr) + List.length (dropped_logged hr)
     + List.length (parse_errors hr) = 1)%nat /\
    read_errors hr = [] /\
    filter is_read hr = [].
Proof.
  unfold handle_record.
  destruct (LostSamples record =? 0); simpl.
  - destruct (binary_Read event_size (RawSample record)) as [ev|e].
    + destruct (ctx_Done env _); simpl; rewrite <- app_assoc;
        eexists; repeat split; reflexivity.
    + simpl. eexists; repeat split; reflexivity.
  - eexists; repeat split; reflexivity.
Qed.

(** Every record the loop gets through is rendered, or reported as lost
    samples, or reported as undecodable; the read errors logged are the
    errors of those reads; and a closed read, if any, is the last
    call. *)
Lemma consume_loop_account (env : Env) (event_size : nat)
    (reads : list (perf_Record * option error)) (w : world) :
  exists tr,
    trace (snd (consume_loop env event_size reads w)) = trace w ++ tr /\
    forallb is_consume tr = true /\
    (List.length (printed tr) + List.length (dropped_logged tr)
     + List.length (parse_errors tr)
     = List.length (before_closed reads))%nat /\
    List.length (read_errors tr) =
      List.length (filter read_failed (before_closed reads)) /\
    (if existsb read_closed reads then
       exists tr0 r e,
         tr = tr0 ++ [ARead r (Some e)] /\ perf_IsClosed e = true /\
         filter is_closed_read tr0 = []
     else filter is_closed_read tr = []).
Proof.
  revert w. induction reads as [|[record err] rest IH]; intro w.
  - exists []. simpl. rewrite app_nil_r. repeat split; reflexivity.
  - simpl. unfold read_closed at 1. simpl.
    destruct err as [e|]; [destruct (perf_IsClosed e) eqn:C|].
    + simpl. exists [ARead record (Some e)]. repeat split; try reflexivity.
      exists [], record, e. auto.
    + simpl.
      destruct (handle_record_account env event_size record
                  (emit (ALog (LogReadErr e))
                     (emit (ARead record (Some e)) w)))
        as (hr & Ht & Hc & Hn & Hre & Hrd).
      destruct (IH (handle_record env event_size record
                      (emit (ALog (LogReadErr e))
                         (emit (ARead record (Some e)) w))))
        as (tr & Ht' & Hc' & Hn' & Hre' & Hcl').
      exists ([ARead record (Some e); ALog (LogReadErr e)] ++ hr ++ tr).
      rewrite Ht', Ht. simpl trace. rewrite <- !app_assoc.
      split; [reflexivity|].
      assert (Hcr : filter is_closed_read hr = [])
        by (apply (filter_weaker is_read); [|exact Hrd];
            intros [] Ha; try discriminate; reflexivity).
      split; [simpl; rewrite forallb_app, Hc, Hc'; reflexivity|].
      split.
      { simpl. rewrite printed_app, dropped_logged_app, parse_errors_app,
          !length_app. lia. }
      split.
      { simpl. unfold read_failed at 1. simpl. rewrite C. simpl.
        rewrite read_errors_app, length_app, Hre. simpl.
        f_equal. exact Hre'. }
      destruct (existsb read_closed rest).
      * destruct Hcl' as (tr0 & r & e' & -> & He' & Hf0).
        exists ([ARead record (Some e); ALog (LogReadErr e)] ++ hr ++ tr0),
          r, e'.
        rewrite <- !app_assoc. repeat split; auto.
        simpl. rewrite C. rewrite filter_app, Hcr, Hf0. reflexivity.
      * simpl. rewrite C. rewrite filter_app, Hcr, Hcl'. reflexivity.
    + simpl.
      destruct (handle_record_account env event_size record
                  (emit (ARead record None) w))
        as (hr & Ht & Hc & Hn & Hre & Hrd).
      destruct (IH (handle_record env event_size record
                      (emit (ARead record None) w)))
        as (tr & Ht' & Hc' & Hn' & Hre' & Hcl').
      exists ([ARead record None] ++ hr ++ tr).
      rewrite Ht', Ht. simpl trace. rewrite <- !app_assoc.
      split; [reflexivity|].
      assert (Hcr : filter is_closed_read hr = [])
        by (apply (filter_weaker is_read); [|exact Hrd];
            intros [] Ha; try discriminate; reflexivity).
      split; [simpl; rewrite forallb_app, Hc, Hc'; reflexivity|].
      split.
      { simpl. rewrite printed_app, dropped_logged_app, parse_errors_app,
          !length_app. lia. }
      split.
      { simpl. rewrite read_errors_app, length_app, Hre. simpl.
        exact Hre'. }
      destruct (existsb read_closed rest).
      * destruct Hcl' as (tr0 & r & e' & -> & He' & Hf0).
        exists ([ARead record None] ++ hr ++ tr0), r, e'.
        rewrite <- !app_assoc. repeat split; auto.
        simpl. rewrite filter_app, Hcr, Hf0. reflexivity.
      * simpl. rewrite filter_app, Hcr, Hcl'. reflexivity.
Qed.

(** ** The consume loop, record by record *)

(** X1.  Every record the consume loop gets through is handled in
    exactly one of three ways: it is rendered, or its lost samples are
    logged, or a parse error is logged for it; and one read error is
    logged for each read that failed with an error other than the closed
    one. *)
Theorem every_record_rendered_or_reported
    (env : Env) (event_size : nat)
    (reads : list (perf_Record * option error)) (w : world) :
  exists tr,
    trace (snd (consume_loop env event_size reads w)) = trace w ++ tr /\
    (List.length (printed tr) + List.length (dropped_logged tr)
     + List.length (parse_errors tr)
     = List.length (before_closed reads))%nat /\
    List.length (read_errors tr) =
      List.length (filter read_failed (before_closed reads)).
Proof.
  destruct (consume_loop_account env event_size reads w)
    as (tr & Ht & _ & Hn & Hr & _).
  exists tr. auto.
Qed.

(** X2.  The first read that returns the closed error ends the loop at
    once: the record that came with it is not looked at, and no later
    read is made. *)
Theorem closed_read_ends_the_loop
    (env : Env) (event_size : nat)
    (before : list (perf_Record * option error)) (r : perf_Record)
    (e : error) (after : list (perf_Record * option error)) (w : world) :
  existsb read_closed before = false ->
  perf_IsClosed e = true ->
  consume_loop env event_size (before ++ (r, Some e) :: after) w =
  (Return,
   emit (ARead r (Some e)) (snd (consume_loop env event_size before w))).
Proof.
  intros Hb He. revert w.
  induction before as [|[record err] before IH]; intro w.
  - simpl. rewrite He. reflexivity.
  - simpl in Hb. apply orb_false_iff in Hb. destruct Hb as [Hc Hb].
    unfold read_closed in Hc. simpl in Hc. simpl.
    destruct err as [e'|]; [rewrite Hc|]; apply (IH Hb).
Qed.

(** X3.  A record that holds a whole event followed by any further bytes
    is rendered as that event: what follows the event is ignored. *)
Theorem trailing_bytes_are_ignored
    (env : Env) (ev padding : list Byte.byte) (err : option error)
    (rest : list (perf_Record * option error)) (w : world) :
  read_closed (padded_record ev padding, err) = false ->
  printed (trace (snd (consume_loop env (List.length ev)
                         ((padded_record ev padding, err) :: rest) w))) =
  printed (trace w)
  ++ ev :: flat_map (rendering (List.length ev)) (before_closed rest).
Proof.
  intro Hc.
  destruct (consume_loop_shape env (List.length ev)
              ((padded_record ev padding, err) :: rest) w)
    as (tr & Ht & _ & _ & _ & _ & Hp).
  rewrite Ht, printed_app, Hp. f_equal.
  unfold read_closed in Hc. simpl in Hc.
  assert (Hr : rendering (List.length ev) (padded_record ev padding, err)
               = [ev]).
  { unfold rendering, renderable. simpl.
    rewrite length_app.
    destruct (Nat.leb_spec (List.length ev)
                (List.length ev + List.length padding)) as [_|L]; [|lia].
    rewrite firstn_app, Nat.sub_diag, firstn_all. simpl.
    rewrite app_nil_r. reflexivity. }
  simpl before_closed.
  destruct err as [e|]; [rewrite Hc|]; simpl flat_map; rewrite Hr;
    reflexivity.
Qed.

(** X4.  A record that reports lost samples is never decoded, whatever
    bytes it carries: its count is logged, nothing is rendered for it,
    and the loop goes on with the next read. *)
Theorem record_reporting_loss_is_not_decoded
    (env : Env) (event_size : nat) (record : perf_Record)
    (err : option error) (rest : list (perf_Record * option error))
    (w : world) :
  LostSamples record <> 0 ->
  read_closed (record, err) = false ->
  printed (trace (snd (consume_loop env event_size
                         ((record, err) :: rest) w))) =
    printed (trace w)
    ++ flat_map (rendering event_size) (before_closed rest) /\
  dropped_logged (trace (snd (consume_loop env event_size
                                ((record, err) :: rest) w))) =
    dropped_logged (trace w)
    ++ LostSamples record :: flat_map loss_line (before_closed rest).
Proof.
  intros Hl Hc.
  destruct (consume_loop_shape env event_size ((record, err) :: rest) w)
    as (tr & Ht & _ & _ & _ & Hd & Hp).
  rewrite Ht, printed_app, dropped_logged_app, Hp, Hd.
  unfold read_closed in Hc. simpl in Hc.
  assert (Hr : rendering event_size (record, err) = []).
  { unfold rendering, renderable. simpl.
    destruct (Z.eqb_spec (LostSamples record) 0); [contradiction|].
    reflexivity. }
  assert (Hll : loss_line (record, err) = [LostSamples record]).
  { unfold loss_line. simpl.
    destruct (Z.eqb_spec (LostSamples record) 0); [contradiction|].
    reflexivity. }
  simpl before_closed.
  destruct err as [e|]; [rewrite Hc|]; simpl flat_map; rewrite Hr, Hll;
    split; reflexivity.
Qed.

(** ** Entries outside 1..5 and the cancellation check *)

(** X5.  The entries outside 1..5 are counted before the [select] of
    line 135 is reached: a catalog made of such entries only goes through
    the loop without any call, cancelled context or not, and every entry
    is counted in [ignored]. *)
Theorem out_of_range_entries_skip_the_select
    (env : Env) (funcs : list (string * Z)) (ignored : Z) (w : world) :
  forallb out_of_range funcs = true ->
  0 <= ignored ->
  ignored + Z.of_nat (List.length funcs) <= int_max ->
  attach_loop env funcs ignored w =
  (Next (ignored + Z.of_nat (List.length funcs)), w).
Proof.
  revert ignored. induction funcs as [|[name pos] funcs IH];
    intros ignored Ho H0 Hmax.
  - simpl. rewrite Z.add_0_r. reflexivity.
  - simpl in Ho. apply andb_true_iff in Ho. destruct Ho as [Hp Ho].
    unfold out_of_range in Hp. simpl in Hp. apply negb_true_iff in Hp.
    apply select_fn_in_range in Hp.
    rewrite attach_loop_equation, Hp.
    simpl List.length in Hmax.
    rewrite int_add_small by lia.
    rewrite IH by (auto; lia).
    f_equal. f_equal. simpl List.length. lia.
Qed.

(** ** Whole runs: how the process ends *)

Ltac kind_cases :=
  let a := fresh "a" in
  let Ha := fresh "Ha" in
  intros a Ha; destruct a; simpl in Ha |- *;
  try reflexivity; try discriminate;
  repeat match goal with
         | b : bool |- _ =>
             destruct b; simpl in *; try reflexivity; try discriminate
         | m : log_msg |- _ =>
             destruct m; simpl in *; try reflexivity; try discriminate
         end.

Lemma attach_world_pieces (env : Env) (funcs : list (string * Z))
    (oa : flow Z) (wa : world) :
  attach_loop env funcs 0 (w_attach env funcs) = (oa, wa) ->
  exists done rest tail,
    funcs = done ++ rest /\
    trace wa = prelude env funcs ++ flat_map (attach_block env) done ++ tail /\
    defers wa =
      map d_kp_Close (rev (attached (flat_map (attach_block env) done)))
      ++ [d_objs_Close; d_stop] /\
    match oa with
    | Next _ => rest = [] /\ tail = []
    | Return => tail = [ASelectAttach true]
    | Exit1 => exists name err, tail = [AFatal (FatalKprobe name err)]
    | Blocked => False
    end.
Proof.
  intro H.
  destruct (attach_loop_shape _ _ _ _ _ _ H)
    as (done & rest & tail & Hf & Ht & Hd & _ & Ho).
  exists done, rest, tail. auto.
Qed.

Lemma map_ARun_is_run (ds : list deferred) :
  forallb is_run (map ARun ds) = true.
Proof. induction ds; simpl; auto. Qed.

(** X6.  When a step of the start-up fails ([unix.Setrlimit],
    [pwru.GetFuncs], [pwru.GetAddrs] or loading the objects), the
    process exits with status 1 right after the fatal message: the
    filter configuration is not written, no probe is attached, no event
    is read and no deferred call runs. *)
Theorem startup_failure_exits_before_any_probe
    (event_size : nat) (env : Env) :
  setrlimit_nofile env <> None \/ setrlimit_memlock env <> None \/
  (exists e, GetFuncs env = inr e) \/ GetAddrs env <> None \/
  LoadObjects env <> None ->
  fst (run_main event_size env) = Exited 1 /\
  (exists pre m, snd (run_main event_size env) = pre ++ [AFatal m]) /\
  filter is_config (snd (run_main event_size env)) = [] /\
  attempts (snd (run_main event_size env)) = [] /\
  filter is_read (snd (run_main event_size env)) = [] /\
  deferred_run (snd (run_main event_size env)) = [].
Proof.
  intro Hfail.
  destruct (run_main_shape event_size env)
    as [(_ & pre & m & -> & Hp)
       |(funcs & oa & wa & (H1 & H2 & H3 & H4 & H5) & _)].
  - simpl. split; [reflexivity|]. split; [eauto|].
    rewrite !filter_app, attempts_app, deferred_run_app.
    rewrite (filter_none is_startup is_config pre Hp) by kind_cases.
    rewrite (filter_none is_startup is_read pre Hp) by kind_cases.
    unfold attempts, deferred_run.
    rewrite (flat_map_none _ is_startup _ pre Hp) by kind_cases.
    rewrite (flat_map_none _ is_startup _ pre Hp) by kind_cases.
    repeat split; reflexivity.
  - exfalso. destruct Hfail as [F|[F|[[e F]|[F|F]]]]; congruence.
Qed.

Lemma consume_world (env : Env) (event_size : nat) (ign : Z) (wa : world) :
  exists ctr,
    trace (snd (consume_loop env event_size (rd_Read env)
                  (w_consume ign wa))) =
    trace wa ++
    [ABarFinish; APrintAttached ign; ANewReader; ALog LogListening;
     APrintHeader] ++ ctr /\
    forallb is_consume ctr = true /\
    (if existsb read_closed (rd_Read env) then
       exists tr0 r e,
         ctr = tr0 ++ [ARead r (Some e)] /\ perf_IsClosed e = true /\
         filter is_closed_read tr0 = []
     else filter is_closed_read ctr = []).
Proof.
  destruct (consume_loop_account env event_size (rd_Read env)
              (w_consume ign wa)) as (ctr & Ht & Hc & _ & _ & Hcl).
  exists ctr. rewrite Ht, w_consume_trace, <- app_assoc. auto.
Qed.

(** From line 55 on: the run ends with status 1 exactly when [main]
    logged a fatal message, which is then its last call, and no deferred
    call has run. *)
Lemma run_main_exit_1
    (event_size : nat) (env : Env) :
  (fst (run_main event_size env) = Exited 1 <->
   existsb is_fatal (snd (run_main event_size env)) = true) /\
  (fst (run_main event_size env) = Exited 1 ->
   deferred_run (snd (run_main event_size env)) = [] /\
   exists pre m, snd (run_main event_size env) = pre ++ [AFatal m]).
Proof.
  destruct (run_main_shape event_size env)
    as [(_ & pre & m & -> & Hp)
       |(funcs & oa & wa & _ & Ha & ->)].
  - simpl. rewrite existsb_app, deferred_run_app. simpl.
    rewrite orb_true_r.
    unfold deferred_run at 1.
    rewrite (flat_map_none _ is_startup _ pre Hp) by kind_cases.
    repeat split; eauto.
  - destruct (attach_world_pieces _ _ _ _ Ha)
      as (done & rest & tail & _ & Ht & Hd & Ho).
    pose proof (blocks_are_blocks env done) as Hb.
    assert (Hbf : existsb is_fatal (flat_map (attach_block env) done)
                  = false)
      by (apply existsb_filter, blocks_no_fatal).
    assert (Hbd : deferred_run (flat_map (attach_block env) done) = [])
      by (apply (flat_map_none _ is_block); [exact Hb|kind_cases]).
    destruct oa as [ign| | |].
    + destruct Ho as [_ ->]. rewrite app_nil_r in Ht.
      destruct (NewReader env) as [e|].
      * simpl. rewrite Ht, !existsb_app, !deferred_run_app, Hbd. simpl.
        rewrite orb_true_r. repeat split; eauto.
        exists (prelude env funcs ++ flat_map (attach_block env) done
                ++ [ABarFinish; APrintAttached ign; ANewReader]),
          (FatalNewReader e).
        rewrite <- !app_assoc. reflexivity.
      * destruct (consume_world env event_size ign wa)
          as (ctr & Hc & Hcc & _).
        assert (Hcf : existsb is_fatal ctr = false)
          by (apply existsb_filter, forallb_consume_not_fatal, Hcc).
        destruct (existsb read_closed (rd_Read env)); simpl;
          rewrite Hc, Ht, !existsb_app, Hbf, Hcf; simpl;
          rewrite ?existsb_app, ?orb_false_r; simpl;
          (split; [split; discriminate|discriminate]) ||
          (split; [split; [discriminate|]|discriminate]).
        intro F. exfalso. revert F.
        rewrite (existsb_filter is_fatal (map ARun _)); [discriminate|].
        apply (filter_none is_run); [apply map_ARun_is_run|kind_cases].
    + subst tail. simpl. rewrite Ht, !existsb_app, Hbf. simpl.
      rewrite (existsb_filter is_fatal (map ARun _));
        [|apply (filter_none is_run); [apply map_ARun_is_run|kind_cases]].
      split; [split; discriminate|discriminate].
    + destruct Ho as (name & err & ->). simpl.
      rewrite Ht, !existsb_app, !deferred_run_app, Hbd. simpl.
      rewrite orb_true_r. repeat split; eauto.
      exists (prelude env funcs ++ flat_map (attach_block env) done),
        (FatalKprobe name err).
      rewrite <- !app_assoc. reflexivity.
    + contradiction.
Qed.

(** X8.  When [perf.NewReader] fails after a complete attach loop, the
    process prints the summary, logs the fatal message and exits with
    status 1: every probe the loop attached stays attached, for no
    [kp.Close()] runs. *)
Theorem reader_failure_leaves_probes_attached
    (event_size : nat) (env : Env) (funcs : list (string * Z)) (e : error) :
  startup_ok env funcs ->
  cancelled_at env = None ->
  existsb (fails_hard env) funcs = false ->
  Z.of_nat (List.length funcs) <= int_max ->
  NewReader env = Some e ->
  run_main event_size env =
    (Exited 1,
     prelude env funcs ++ flat_map (attach_block env) funcs ++
     [ABarFinish;
      APrintAttached
        (Z.of_nat (List.length (filter out_of_range funcs))
         + Z.of_nat (List.length (filter (not_exist env) funcs)));
      ANewReader; AFatal (FatalNewReader e)]) /\
  released (snd (run_main event_size env)) = [].
Proof.
  intros Hs Hc Hh Hmax Hr.
  destruct (run_main_shape event_size env)
    as [(Hfail & _)|(funcs' & oa & wa & Hs' & Ha & E)].
  { exfalso. destruct Hs as (H1 & H2 & H3 & H4 & H5).
    destruct Hfail as [F|[F|[[e' F]|[F|F]]]]; congruence. }
  assert (funcs' = funcs).
  { destruct Hs as (_ & _ & H3 & _). destruct Hs' as (_ & _ & H3' & _).
    congruence. }
  subst funcs'.
  destruct (attach_loop_completes env funcs 0 (w_attach env funcs) Hc Hh)
    as (ign & w' & Hn).
  rewrite Hn in Ha. inversion Ha; subst oa wa. clear Ha.
  destruct (attach_world_pieces _ _ _ _ Hn)
    as (done & rest & tail & Hf & Ht & _ & -> & ->).
  rewrite app_nil_r in Hf, Ht. subst done.
  destruct (attach_loop_counts _ _ _ _ _ _ Hn) as [_ C2]; [lia|lia|].
  rewrite Hr in E. rewrite E. simpl snd. split.
  - rewrite Ht, C2, <- !app_assoc. reflexivity.
  - rewrite Ht, !released_app.
    destruct (blocks_facts env funcs) as (_ & -> & _). reflexivity.
Qed.

Lemma attached_map_ARun (ds : list deferred) : attached (map ARun ds) = [].
Proof.
  unfold attached.
  apply (flat_map_none _ is_run); [apply map_ARun_is_run|kind_cases].
Qed.

(** From line 55 on: when the run ends with status 0, the deferred
    calls are the last calls of [main], last deferred first. *)
Lemma run_main_exit_0_deferred
    (event_size : nat) (env : Env) :
  fst (run_main event_size env) = Exited 0 ->
  deferred_run (snd (run_main event_size env)) =
    (if existsb is_new_reader (snd (run_main event_size env))
     then [d_rd_Close] else [])
    ++ map d_kp_Close (rev (attached (snd (run_main event_size env))))
    ++ [d_objs_Close; d_stop] /\
  exists body,
    snd (run_main event_size env) =
      body ++ map ARun (deferred_run (snd (run_main event_size env))) /\
    deferred_run body = [].
Proof.
  destruct (run_main_shape event_size env)
    as [(_ & pre & m & -> & Hp)
       |(funcs & oa & wa & _ & Ha & ->)]; [discriminate|].
  destruct (attach_world_pieces _ _ _ _ Ha)
    as (done & rest & tail & _ & Ht & Hd & Ho).
  pose proof (blocks_are_blocks env done) as Hb.
  assert (Hbd : deferred_run (flat_map (attach_block env) done) = [])
    by (apply (flat_map_none _ is_block); [exact Hb|kind_cases]).
  assert (Hbn : existsb is_new_reader (flat_map (attach_block env) done)
                = false)
    by (apply existsb_filter, (filter_none is_block);
        [exact Hb|kind_cases]).
  assert (Hrn : forall ds, existsb is_new_reader (map ARun ds) = false)
    by (intro ds; apply existsb_filter, (filter_none is_run);
        [apply map_ARun_is_run|kind_cases]).
  destruct oa as [ign| | |].
  - destruct Ho as [_ ->]. rewrite app_nil_r in Ht.
    destruct (NewReader env) as [e|]; [discriminate|].
    destruct (consume_world env event_size ign wa) as (ctr & Hc & Hcc & _).
    destruct (existsb read_closed (rd_Read env)); [|discriminate].
    intros _. cbn [snd].
    assert (Hcd : deferred_run ctr = [])
      by (apply (flat_map_none _ is_consume); [exact Hcc|kind_cases]).
    assert (Hca : attached ctr = [])
      by (apply (flat_map_none _ is_consume); [exact Hcc|kind_cases]).
    rewrite Hc, Ht, Hd.
    rewrite !deferred_run_app, !attached_app, !existsb_app, Hbd, Hcd, Hca,
      deferred_run_map, attached_map_ARun.
    simpl. rewrite !app_nil_r, orb_true_r. split; [reflexivity|].
    exists (prelude env funcs ++ flat_map (attach_block env) done ++
            [ABarFinish; APrintAttached ign; ANewReader; ALog LogListening;
             APrintHeader] ++ ctr).
    rewrite !deferred_run_app, Hbd, Hcd. rewrite <- !app_assoc.
    split; reflexivity.
  - subst tail. intros _. cbn [snd].
    rewrite Ht, Hd.
    rewrite !deferred_run_app, !attached_app, !existsb_app, Hbd, Hbn, Hrn,
      deferred_run_map, attached_map_ARun.
    simpl. rewrite !app_nil_r. split; [reflexivity|].
    exists (prelude env funcs ++ flat_map (attach_block env) done ++
            [ASelectAttach true]).
    rewrite !deferred_run_app, Hbd. rewrite <- !app_assoc.
    split; reflexivity.
  - discriminate.
  - discriminate.
Qed.

(** ** Whole runs: what comes before what *)

Lemma filter_hit (P : action -> bool) (pre post : list action) (a : action) :
  P a = true -> filter P (pre ++ a :: post) <> [].
Proof.
  intros Ha H. rewrite filter_app in H. apply app_eq_nil in H.
  destruct H as [_ H]. simpl in H. rewrite Ha in H. discriminate.
Qed.

Lemma split_after (P : action -> bool) (l1 l2 pre post : list action)
    (a : action) :
  l1 ++ l2 = pre ++ a :: post ->
  filter P l1 = [] -> P a = true ->
  exists m, pre = l1 ++ m /\ l2 = m ++ a :: post.
Proof.
  revert pre. induction l1 as [|x l1 IH]; intros pre H Hn Ha.
  - exists pre. auto.
  - simpl in Hn. destruct (P x) eqn:Px; [discriminate|].
    destruct pre as [|y pre]; simpl in H; inversion H; subst.
    + congruence.
    + destruct (IH pre H2 Hn Ha) as (m & -> & ->). exists m. auto.
Qed.

Lemma kind_in (P : action -> bool) (l : list action) (a : action) :
  forallb P l = true -> In a l -> P a = true.
Proof. intros H Hin. exact (proj1 (forallb_forall P l) H a Hin). Qed.

(** How a run ends, read off the [select] of the attach loop and the
    closed reads of its trace. *)
Lemma exit_0_kinds (event_size : nat) (env : Env) :
  (fst (run_main event_size env) = Exited 0 /\
   (existsb is_cancel_select (snd (run_main event_size env)) = true \/
    existsb is_closed_read (snd (run_main event_size env)) = true)) \/
  (fst (run_main event_size env) <> Exited 0 /\
   existsb is_cancel_select (snd (run_main event_size env)) = false /\
   existsb is_closed_read (snd (run_main event_size env)) = false).
Proof.
  destruct (run_main_shape event_size env)
    as [(_ & pre & m & -> & Hp)
       |(funcs & oa & wa & _ & Ha & ->)].
  - right. simpl. rewrite !existsb_app. simpl. rewrite !orb_false_r.
    rewrite (existsb_filter is_cancel_select pre),
      (existsb_filter is_closed_read pre);
      try (apply (filter_none is_startup); [exact Hp|kind_cases]).
    repeat split; discriminate || reflexivity.
  - destruct (attach_world_pieces _ _ _ _ Ha)
      as (done & rest & tail & _ & Ht & Hd & Ho).
    pose proof (blocks_are_blocks env done) as Hb.
    assert (Hb1 : existsb is_cancel_select
                    (flat_map (attach_block env) done) = false)
      by (apply existsb_filter, (filter_none is_block);
          [exact Hb|kind_cases]).
    assert (Hb2 : existsb is_closed_read
                    (flat_map (attach_block env) done) = false)
      by (apply existsb_filter, (filter_none is_block);
          [exact Hb|kind_cases]).
    assert (Hr1 : forall ds, existsb is_cancel_select (map ARun ds) = false)
      by (intro ds; apply existsb_filter, (filter_none is_run);
          [apply map_ARun_is_run|kind_cases]).
    assert (Hr2 : forall ds, existsb is_closed_read (map ARun ds) = false)
      by (intro ds; apply existsb_filter, (filter_none is_run);
          [apply map_ARun_is_run|kind_cases]).
    destruct oa as [ign| | |].
    + destruct Ho as [_ ->]. rewrite app_nil_r in Ht.
      destruct (NewReader env) as [e|].
      * right. cbn [fst snd]. rewrite Ht, !existsb_app, Hb1, Hb2. simpl.
        repeat split; discriminate || reflexivity.
      * destruct (consume_world env event_size ign wa)
          as (ctr & Hc & Hcc & Hcl).
        assert (Hc1 : existsb is_cancel_select ctr = false)
          by (apply existsb_filter, (filter_none is_consume);
              [exact Hcc|kind_cases]).
        destruct (existsb read_closed (rd_Read env)).
        -- left. cbn [fst snd]. split; [reflexivity|]. right.
           destruct Hcl as (tr0 & r & e & -> & He & _).
           rewrite Hc, !existsb_app. simpl. rewrite He. simpl.
           rewrite !orb_true_r. reflexivity.
        -- right. cbn [fst snd].
           rewrite Hc, Ht, !existsb_app, Hb1, Hb2, Hc1.
           rewrite (existsb_filter is_closed_read ctr Hcl). simpl.
           repeat split; discriminate || reflexivity.
    + subst tail. left. cbn [fst snd]. split; [reflexivity|]. left.
      rewrite Ht, !existsb_app. simpl. rewrite !orb_true_r. reflexivity.
    + destruct Ho as (name & err & ->). right. cbn [fst snd].
      rewrite Ht, !existsb_app, Hb1, Hb2. simpl.
      repeat split; discriminate || reflexivity.
    + contradiction.
Qed.

(** From line 55 on: the run ends with status 0 exactly when the
    [select] of the attach loop found the context cancelled or a read
    returned the closed error. *)
Lemma run_main_exit_0
    (event_size : nat) (env : Env) :
  fst (run_main event_size env) = Exited 0 <->
  (In (ASelectAttach true) (snd (run_main event_size env)) \/
   exists r e,
     In (ARead r (Some e)) (snd (run_main event_size env)) /\
     perf_IsClosed e = true).
Proof.
  destruct (exit_0_kinds event_size env) as [(H0 & Hk)|(H0 & K1 & K2)].
  - split; [intros _|intros _; exact H0].
    destruct Hk as [Hk|Hk]; apply existsb_exists in Hk;
      destruct Hk as (a & Hin & Ha).
    + left. destruct a; try discriminate.
      destruct done; [exact Hin|discriminate].
    + right. destruct a; try discriminate.
      destruct err as [e|]; [|discriminate]. eauto.
  - split; [intro F; contradiction|].
    intros [Hin|(r & e & Hin & He)]; exfalso.
    + assert (existsb is_cancel_select (snd (run_main event_size env))
              = true)
        by (apply existsb_exists; exists (ASelectAttach true); auto).
      congruence.
    + assert (existsb is_closed_read (snd (run_main event_size env)) = true)
        by (apply existsb_exists; exists (ARead r (Some e)); auto).
      congruence.
Qed.

(** X11.  When the [select] of the attach loop finds the context
    cancelled, [main] returns there: nothing of what follows the loop
    happens (no summary line, no reader, no header, no read), and the
    deferred calls run right after the [select]. *)
Theorem cancelled_attach_returns_before_the_reader
    (event_size : nat) (env : Env) :
  In (ASelectAttach true) (snd (run_main event_size env)) ->
  filter is_after_attach (snd (run_main event_size env)) = [] /\
  exists pre,
    snd (run_main event_size env) =
    pre ++ ASelectAttach true
        :: map ARun (deferred_run (snd (run_main event_size env))) /\
    deferred_run pre = [].
Proof.
  intro Hin.
  assert (Hsel : existsb is_cancel_select (snd (run_main event_size env))
                 = true)
    by (apply existsb_exists; exists (ASelectAttach true); auto).
  clear Hin. revert Hsel.
  destruct (run_main_shape event_size env)
    as [(_ & pre & m & -> & Hp)
       |(funcs & oa & wa & _ & Ha & ->)].
  - cbn [snd]. rewrite existsb_app. simpl. rewrite orb_false_r.
    rewrite (existsb_filter is_cancel_select pre);
      [discriminate|apply (filter_none is_startup); [exact Hp|kind_cases]].
  - destruct (attach_world_pieces _ _ _ _ Ha)
      as (done & rest & tail & _ & Ht & Hd & Ho).
    pose proof (blocks_are_blocks env done) as Hb.
    assert (Hb1 : existsb is_cancel_select
                    (flat_map (attach_block env) done) = false)
      by (apply existsb_filter, (filter_none is_block);
          [exact Hb|kind_cases]).
    destruct oa as [ign| | |].
    + destruct Ho as [_ ->]. rewrite app_nil_r in Ht.
      destruct (NewReader env) as [e|].
      * cbn [snd]. rewrite Ht, !existsb_app, Hb1. simpl. discriminate.
      * destruct (consume_world env event_size ign wa)
          as (ctr & Hc & Hcc & _).
        assert (Hc1 : existsb is_cancel_select ctr = false)
          by (apply existsb_filter, (filter_none is_consume);
              [exact Hcc|kind_cases]).
        destruct (existsb read_closed (rd_Read env)); cbn [snd];
          rewrite Hc, Ht, !existsb_app, Hb1, Hc1; simpl;
          rewrite ?(existsb_filter is_cancel_select (map ARun _));
          try discriminate;
          apply (filter_none is_run); [apply map_ARun_is_run|kind_cases].
    + subst tail. intros _. cbn [snd]. rewrite Ht.
      assert (Hbd : deferred_run (flat_map (attach_block env) done) = [])
        by (apply (flat_map_none _ is_block); [exact Hb|kind_cases]).
      split.
      * rewrite !filter_app.
        rewrite (filter_none is_block is_after_attach _ Hb) by kind_cases.
        rewrite (filter_none is_run is_after_attach _
                   (map_ARun_is_run (defers wa))) by kind_cases.
        reflexivity.
      * exists (prelude env funcs ++ flat_map (attach_block env) done).
        rewrite !deferred_run_app, Hbd, deferred_run_map.
        rewrite <- !app_assoc. split; reflexivity.
    + destruct Ho as (name & err & ->). cbn [snd].
      rewrite Ht, !existsb_app, Hb1. simpl. discriminate.
    + contradiction.
Qed.

Lemma blocks_increments (env : Env) (l : list (string * Z)) :
  List.length (filter is_bar_increment (flat_map (attach_block env) l)) =
  List.length (wanted l).
Proof.
  induction l as [|e l IH]; [reflexivity|].
  simpl. rewrite filter_app, !length_app, IH. unfold attach_block.
  destruct (select_fn (snd e)); reflexivity.
Qed.

Lemma wanted_count (l : list (string * Z)) :
  List.length (wanted l) =
  List.length (filter (fun e => in_range (snd e)) l).
Proof.
  rewrite <- (length_map fst (wanted l)), wanted_in_range, length_map.
  reflexivity.
Qed.

Lemma wanted_app (l l' : list (string * Z)) :
  wanted (l ++ l') = wanted l ++ wanted l'.
Proof. apply flat_map_app. Qed.

Lemma forallb_weaken (P Q : action -> bool) (l : list action) :
  (forall a, P a = true -> Q a = true) ->
  forallb P l = true -> forallb Q l = true.
Proof.
  intros HPQ H. apply forallb_forall. intros a Hin.
  apply HPQ. exact (kind_in P l a H Hin).
Qed.

(** After a successful start-up the trace is the prelude, the blocks of
    the entries the loop got past, and late calls. *)
Lemma run_main_pieces (event_size : nat) (env : Env)
    (funcs : list (string * Z)) :
  startup_ok env funcs ->
  exists done rest late,
    funcs = done ++ rest /\
    snd (run_main event_size env) =
      prelude env funcs ++ flat_map (attach_block env) done ++ late /\
    forallb is_late late = true.
Proof.
  intro Hs.
  destruct (run_main_shape event_size env)
    as [(Hfail & _)|(funcs' & oa & wa & Hs' & Ha & E)].
  { exfalso. destruct Hs as (H1 & H2 & H3 & H4 & H5).
    destruct Hfail as [F|[F|[[e' F]|[F|F]]]]; congruence. }
  assert (funcs' = funcs).
  { destruct Hs as (_ & _ & H3 & _). destruct Hs' as (_ & _ & H3' & _).
    congruence. }
  subst funcs'. rewrite E. clear E.
  destruct (attach_world_pieces _ _ _ _ Ha)
    as (done & rest & tail & Hf & Ht & _ & Ho).
  exists done, rest.
  assert (Hrun : forall ds, forallb is_late (map ARun ds) = true).
  { intro ds. apply (forallb_weaken is_run); [|apply map_ARun_is_run].
    intros a Ha'. unfold is_late. rewrite Ha'. apply orb_true_r. }
  destruct oa as [ign| | |].
  - destruct Ho as [_ ->]. rewrite app_nil_r in Ht.
    destruct (NewReader env) as [e|].
    + eexists. cbn [snd]. rewrite Ht, <- ?app_assoc.
      split; [exact Hf|]. split; reflexivity.
    + destruct (consume_world env event_size ign wa)
        as (ctr & Hc & Hcc & _).
      assert (Hcl : forallb is_late ctr = true).
      { apply (forallb_weaken is_consume); [|exact Hcc].
        intros a Ha'. unfold is_late. rewrite Ha'.
        rewrite orb_true_r. reflexivity. }
      destruct (existsb read_closed (rd_Read env)); eexists; cbn [snd];
        rewrite Hc, Ht, <- ?app_assoc; (split; [exact Hf|]);
        (split; [reflexivity|]); simpl; rewrite ?forallb_app, Hcl;
        simpl; rewrite ?Hrun; reflexivity.
  - subst tail. eexists. cbn [snd]. rewrite Ht, <- ?app_assoc.
    split; [exact Hf|]. split; [reflexivity|]. simpl. apply Hrun.
  - destruct Ho as (name & err & ->). eexists. cbn [snd].
    rewrite Ht, <- ?app_assoc.
    split; [exact Hf|]. split; [reflexivity|reflexivity].
  - contradiction.
Qed.

Lemma late_facts (l : list action) :
  forallb is_late l = true ->
  filter is_bar_increment l = [] /\ attempts l = [] /\ attached l = [] /\
  filter is_config l = [] /\
  forall n, ~ In (ABarStart n) l.
Proof.
  intro H. repeat split.
  - apply (filter_none is_late); [exact H|kind_cases].
  - apply (flat_map_none _ is_late); [exact H|kind_cases].
  - apply (flat_map_none _ is_late); [exact H|kind_cases].
  - apply (filter_none is_late); [exact H|kind_cases].
  - intros n Hin. pose proof (kind_in is_late l _ H Hin). discriminate.
Qed.

(** X12.  The progress bar is started with the size of the catalog and
    advanced once per attachment attempt, failed ones included; the
    entries outside 1..5 never advance it, so the number of increments
    is at most the number of entries with position in 1..5. *)
Theorem progress_advances_once_per_attempt
    (event_size : nat) (env : Env) (funcs : list (string * Z)) :
  GetFuncs env = inl funcs ->
  List.length (filter is_bar_increment (snd (run_main event_size env))) =
    List.length (attempts (snd (run_main event_size env))) /\
  (List.length (attempts (snd (run_main event_size env))) <=
   List.length (filter (fun e => in_range (snd e)) funcs))%nat /\
  (forall n,
      In (ABarStart n) (snd (run_main event_size env)) ->
      n = List.length funcs).
Proof.
  intro Hg.
  destruct (run_main_shape event_size env)
    as [(_ & pre & m & -> & Hp)
       |(funcs' & oa & wa & Hs & _)].
  - assert (Hpa : attempts pre = [])
      by (apply (flat_map_none _ is_startup); [exact Hp|kind_cases]).
    assert (Hpb : filter is_bar_increment pre = [])
      by (apply (filter_none is_startup); [exact Hp|kind_cases]).
    cbn [snd]. rewrite filter_app, attempts_app, Hpa, Hpb. simpl.
    split; [reflexivity|]. split; [lia|].
    intros n Hin. exfalso. apply in_app_or in Hin.
    destruct Hin as [Hin|[Hin|[]]]; [|discriminate].
    pose proof (kind_in is_startup pre _ Hp Hin). discriminate.
  - assert (funcs' = funcs)
      by (destruct Hs as (_ & _ & Hg' & _); congruence).
    subst funcs'.
    destruct (run_main_pieces event_size env funcs Hs)
      as (done & rest & late & Hf & -> & Hl).
    destruct (late_facts late Hl) as (L1 & L2 & _ & _ & L5).
    pose proof (blocks_are_blocks env done) as Hb.
    assert (Hpa : attempts (prelude env funcs) = []) by reflexivity.
    assert (Hpb : filter is_bar_increment (prelude env funcs) = [])
      by reflexivity.
    rewrite !filter_app, !attempts_app, L1, L2, Hpa, Hpb, attempts_blocks,
      !app_nil_r.
    simpl app. rewrite blocks_increments. repeat split.
    + rewrite <- wanted_count, Hf, wanted_app, length_app. lia.
    + intros n Hin.
      destruct Hin as [Hin|[Hin|[Hin|[Hin|[Hin|[Hin|[Hin|[Hin|Hin]]]]]]]];
        try discriminate.
      * inversion Hin. reflexivity.
      * exfalso. apply in_app_or in Hin. destruct Hin as [Hin|Hin].
        -- pose proof (kind_in is_block _ _ Hb Hin). discriminate.
        -- exact (L5 n Hin).
Qed.


(** X13.  The summary line is printed only after the whole catalog went
    through the attach loop, and the number it reports is the number of
    entries outside 1..5 plus the number of attempts that failed with
    [os.ErrNotExist]; together with the probes attached it makes up the
    catalog. *)
Theorem summary_line_reports_the_ignored_entries
    (event_size : nat) (env : Env) (funcs : list (string * Z)) (n : Z) :
  GetFuncs env = inl funcs ->
  Z.of_nat (List.length funcs) <= int_max ->
  In (APrintAttached n) (snd (run_main event_size env)) ->
  n = Z.of_nat (List.length (filter out_of_range funcs))
      + Z.of_nat (List.length (filter (not_exist env) funcs)) /\
  Z.of_nat (List.length (attached (snd (run_main event_size env)))) + n =
    Z.of_nat (List.length funcs) /\
  attempts (snd (run_main event_size env)) = wanted funcs.
Proof.
  intros Hg Hmax.
  destruct (run_main_shape event_size env)
    as [(_ & pre & m & -> & Hp)
       |(funcs' & oa & wa & Hs & Ha & E)].
  { cbn [snd]. intro Hin. exfalso. apply in_app_or in Hin.
    destruct Hin as [Hin|[Hin|[]]]; [|discriminate].
    pose proof (kind_in is_startup pre _ Hp Hin). discriminate. }
  assert (funcs' = funcs)
    by (destruct Hs as (_ & _ & Hg' & _); congruence).
  subst funcs'.
  destruct (attach_world_pieces _ _ _ _ Ha)
    as (done & rest & tail & Hf & Ht & _ & Ho).
  assert (Hrunp : forall ds, ~ In (APrintAttached n) (map ARun ds)).
  { intros ds Hin.
    pose proof (kind_in is_run _ _ (map_ARun_is_run ds) Hin).
    discriminate. }
  assert (Hwa : ~ In (APrintAttached n) (trace wa)).
  { rewrite Ht. intro Hin.
    apply in_app_or in Hin. destruct Hin as [Hin|Hin].
    { simpl in Hin.
      repeat (destruct Hin as [Hin|Hin]; [discriminate|]). exact Hin. }
    apply in_app_or in Hin. destruct Hin as [Hin|Hin].
    { pose proof (kind_in is_block _ _ (blocks_are_blocks env done) Hin).
      discriminate. }
    destruct oa.
    - destruct Ho as [_ ->]. exact Hin.
    - subst tail. destruct Hin as [Hin|[]]. discriminate.
    - destruct Ho as (nm & err & ->). destruct Hin as [Hin|[]].
      discriminate.
    - contradiction. }
  rewrite E. clear E.
  destruct oa as [ign| | |].
  2:{ cbn [snd]. intro Hin. exfalso. apply in_app_or in Hin.
      destruct Hin as [Hin|Hin]; [contradiction|exact (Hrunp _ Hin)]. }
  2:{ cbn [snd]. intro Hin. contradiction. }
  2:{ contradiction. }
  destruct Ho as [-> ->]. rewrite app_nil_r in Hf, Ht. subst done.
  destruct (attach_loop_counts _ _ _ _ _ _ Ha) as [C1 C2]; [lia|lia|].
  change (attached (trace (w_attach env funcs))) with (@nil string) in C1.
  simpl List.length in C1.
  assert (Hatt : attempts (trace wa) = wanted funcs).
  { rewrite Ht, attempts_app, attempts_blocks. reflexivity. }
  assert (Hpost :
            exists post,
              (match NewReader env with
               | Some e =>
                   (Exited 1,
                    trace wa ++
                    [ABarFinish; APrintAttached ign; ANewReader;
                     AFatal (FatalNewReader e)])
               | None =>
                   if existsb read_closed (rd_Read env) then
                     (Exited 0,
                      trace (snd (consume_loop env event_size (rd_Read env)
                                    (w_consume ign wa)))
                      ++ map ARun (d_rd_Close :: defers wa))
                   else
                     (Running,
                      trace (snd (consume_loop env event_size (rd_Read env)
                                    (w_consume ign wa))))
               end) = (fst (match NewReader env with
                            | Some e => (Exited 1, @nil action)
                            | None =>
                                if existsb read_closed (rd_Read env)
                                then (Exited 0, [])
                                else (Running, [])
                            end), trace wa ++ post) /\
              forallb is_late post = true /\
              (In (APrintAttached n) post -> n = ign)).
  { destruct (NewReader env) as [e|].
    - eexists. split; [reflexivity|]. split; [reflexivity|].
      simpl. intros [H|[H|[H|[H|[]]]]]; try discriminate.
      inversion H. reflexivity.
    - destruct (consume_world env event_size ign wa)
        as (ctr & Hc & Hcc & _).
      assert (Hcl : forallb is_late ctr = true).
      { apply (forallb_weaken is_consume); [|exact Hcc].
        intros a Ha'. unfold is_late. rewrite Ha'.
        rewrite orb_true_r. reflexivity. }
      assert (Hrun : forall ds, forallb is_late (map ARun ds) = true).
      { intro ds. apply (forallb_weaken is_run); [|apply map_ARun_is_run].
        intros a Ha'. unfold is_late. rewrite Ha'. apply orb_true_r. }
      assert (Hcn : ~ In (APrintAttached n) ctr).
      { intro Hin. pose proof (kind_in is_consume _ _ Hcc Hin).
        discriminate. }
      destruct (existsb read_closed (rd_Read env)); rewrite Hc;
        rewrite <- ?app_assoc; eexists; (split; [reflexivity|]);
        (split;
         [simpl; rewrite ?forallb_app, Hcl; simpl; rewrite ?Hrun;
          reflexivity|]).
      + intro Hin. simpl in Hin.
        destruct Hin as [H|[H|[H|[H|[H|H]]]]]; try discriminate.
        * inversion H. reflexivity.
        * exfalso. apply in_app_or in H. destruct H as [H|H];
            [exact (Hcn H)|].
          exact (Hrunp (d_rd_Close :: defers wa) H).
      + intro Hin. simpl in Hin.
        destruct Hin as [H|[H|[H|[H|[H|H]]]]]; try discriminate.
        * inversion H. reflexivity.
        * exfalso. exact (Hcn H). }
  destruct Hpost as (post & -> & Hl & Hn).
  cbn [snd]. intro Hin.
  apply in_app_or in Hin. destruct Hin as [Hin|Hin]; [contradiction|].
  rewrite (Hn Hin).
  destruct (late_facts post Hl) as (_ & L2 & L3 & _ & _).
  rewrite attached_app, attempts_app, L2, L3, !app_nil_r.
  repeat split; [lia|lia|exact Hatt].
Qed.

(** X14.  Events are read only by a reader created after the attach
    loop: every [rd.Read()] comes after the summary line, the call of
    [perf.NewReader] and the header, and the reader is created and the
    header printed at most once in a run. *)
Theorem events_are_read_after_the_header
    (event_size : nat) (env : Env) :
  (forall pre a post,
      snd (run_main event_size env) = pre ++ a :: post ->
      is_read a = true ->
      (exists n, In (APrintAttached n) pre) /\
      In ANewReader pre /\ In APrintHeader pre) /\
  (List.length (filter is_new_reader (snd (run_main event_size env)))
   <= 1)%nat /\
  (List.length (filter is_header (snd (run_main event_size env)))
   <= 1)%nat.
Proof.
  assert (Hno : forall tr,
             filter is_read tr = [] ->
             forall pre a post,
               tr = pre ++ a :: post -> is_read a = true ->
               (exists n, In (APrintAttached n) pre) /\
               In ANewReader pre /\ In APrintHeader pre).
  { intros tr Hr pre a post E Ha. exfalso. rewrite E in Hr.
    exact (filter_hit is_read pre post a Ha Hr). }
  destruct (run_main_shape event_size env)
    as [(_ & pre & m & -> & Hp)
       |(funcs & oa & wa & _ & Ha & ->)].
  - cbn [snd].
    assert (K : forall Q, (forall a, is_startup a = true -> Q a = false) ->
                          Q (AFatal m) = false ->
                          filter Q (pre ++ [AFatal m]) = []).
    { intros Q HQ HQm. rewrite filter_app. simpl. rewrite HQm.
      rewrite (filter_none is_startup Q pre Hp HQ). reflexivity. }
    split; [apply Hno; apply K; [kind_cases|reflexivity]|].
    rewrite !K; try reflexivity; try kind_cases. simpl. lia.
  - destruct (attach_world_pieces _ _ _ _ Ha)
      as (done & rest & tail & _ & Ht & _ & Ho).
    assert (Htail : forallb (fun a => is_cancel_select a || is_fatal a) tail
                    = true).
    { destruct oa.
      - destruct Ho as [_ ->]. reflexivity.
      - subst tail. reflexivity.
      - destruct Ho as (nm & err & ->). reflexivity.
      - contradiction. }
    assert (K : forall Q,
               filter Q (prelude env funcs) = [] ->
               (forall a, is_block a = true -> Q a = false) ->
               (forall a, is_cancel_select a || is_fatal a = true ->
                          Q a = false) ->
               filter Q (trace wa) = []).
    { intros Q H1 H2 H3. rewrite Ht, !filter_app, H1.
      rewrite (filter_none is_block Q _ (blocks_are_blocks env done) H2).
      rewrite (filter_none _ Q tail Htail H3). reflexivity. }
    assert (Q1 : filter is_read (trace wa) = [])
      by (apply K; [reflexivity|kind_cases|kind_cases]).
    assert (Q2 : filter is_new_reader (trace wa) = [])
      by (apply K; [reflexivity|kind_cases|kind_cases]).
    assert (Q3 : filter is_header (trace wa) = [])
      by (apply K; [reflexivity|kind_cases|kind_cases]).
    assert (R : forall Q ds, (forall a, is_run a = true -> Q a = false) ->
                             filter Q (map ARun ds) = []).
    { intros Q ds HQ. apply (filter_none is_run);
        [apply map_ARun_is_run|exact HQ]. }
    destruct oa as [ign| | |].
    + destruct (NewReader env) as [e|].
      * cbn [snd]. split.
        -- apply Hno. rewrite filter_app, Q1. reflexivity.
        -- rewrite !filter_app, Q2, Q3. simpl. lia.
      * destruct (consume_world env event_size ign wa)
          as (ctr & Hc & Hcc & _).
        assert (C2 : filter is_new_reader ctr = [])
          by (apply (filter_none is_consume); [exact Hcc|kind_cases]).
        assert (C3 : filter is_header ctr = [])
          by (apply (filter_none is_consume); [exact Hcc|kind_cases]).
        assert (Hsplit :
                  forall tl pre a post,
                    trace wa ++
                    [ABarFinish; APrintAttached ign; ANewReader;
                     ALog LogListening; APrintHeader] ++ ctr ++ tl
                    = pre ++ a :: post ->
                    is_read a = true ->
                    (exists n, In (APrintAttached n) pre) /\
                    In ANewReader pre /\ In APrintHeader pre).
        { intros tl pre a post E Hra.
          assert (E' : (trace wa ++
                        [ABarFinish; APrintAttached ign; ANewReader;
                         ALog LogListening; APrintHeader]) ++ (ctr ++ tl)
                       = pre ++ a :: post)
            by (rewrite <- E, <- !app_assoc; reflexivity).
          assert (F : filter is_read
                        (trace wa ++
                         [ABarFinish; APrintAttached ign; ANewReader;
                          ALog LogListening; APrintHeader]) = [])
            by (rewrite filter_app, Q1; reflexivity).
          destruct (split_after is_read _ _ pre post a E' F Hra)
            as (mid & -> & _).
          split; [exists ign|split];
            apply in_or_app; left; apply in_or_app; right; simpl; tauto. }
        destruct (existsb read_closed (rd_Read env)); cbn [snd]; rewrite Hc.
        -- split.
           ++ intros pre a post E Hra.
              apply (Hsplit (map ARun (d_rd_Close :: defers wa)) pre a post);
                [|exact Hra].
              rewrite <- E, <- !app_assoc. reflexivity.
           ++ rewrite !filter_app, Q2, Q3, C2, C3, !R by kind_cases.
              simpl. lia.
        -- split.
           ++ intros pre a post E Hra.
              apply (Hsplit [] pre a post); [|exact Hra].
              rewrite app_nil_r. exact E.
           ++ rewrite !filter_app, Q2, Q3, C2, C3. simpl. lia.
    + cbn [snd]. split.
      * apply Hno. rewrite filter_app, Q1, R by kind_cases. reflexivity.
      * rewrite !filter_app, Q2, Q3, !R by kind_cases. simpl. lia.
    + cbn [snd]. split; [apply Hno; exact Q1|]. rewrite Q2, Q3. simpl. lia.
    + contradiction.
Qed.

(** ** The further properties at concrete runs *)

Example traced_run_trace :
  run_main 8 traced_run =
  (Exited 0,
   prelude traced_run skewed_catalog ++
   [ASelectAttach false; AKprobe "ip_rcv" kprobe1 None; ABarIncrement;
    ASelectAttach false;
    AKprobe "tcp_gone" kprobe2
      (Some (ErrWrap "opening kprobe" (ErrSentinel os_ErrNotExist)));
    ABarIncrement;
    ABarFinish; APrintAttached 2; ANewReader; ALog LogListening;
    APrintHeader;
    ARead nine_bytes None; APrint (firstn 8 (RawSample nine_bytes));
    ASelectConsume false;
    ARead lossy_record None; ALog (LogDropped 2);
    ARead three_bytes None; ALog (LogParse io_ErrUnexpectedEOF);
    ARead {| LostSamples := 0; RawSample := [] |}
      (Some (ErrSentinel perf_errClosed));
    ARun d_rd_Close; ARun (d_kp_Close "ip_rcv"); ARun d_objs_Close;
    ARun d_stop]).
Proof. reflexivity. Qed.

Lemma closed_read_ends_the_loop_witness :
  consume_loop idle_env 8 short_session init =
  (Return,
   emit (ARead {| LostSamples := 0; RawSample := [] |}
           (Some (ErrSentinel perf_errClosed)))
     (snd (consume_loop idle_env 8
             [(nine_bytes, None); (lossy_record, None); (three_bytes, None)]
             init))).
Proof.
  exact (closed_read_ends_the_loop idle_env 8
           [(nine_bytes, None); (lossy_record, None); (three_bytes, None)]
           {| LostSamples := 0; RawSample := [] |}
           (ErrSentinel perf_errClosed) [(nine_bytes, None)] init
           eq_refl eq_refl).
Defined.

Lemma trailing_bytes_are_ignored_witness :
  printed (trace (snd (consume_loop idle_env 8
                         [(nine_bytes, None); (three_bytes, None)] init))) =
  [firstn 8 (RawSample nine_bytes)].
Proof.
  exact (trailing_bytes_are_ignored idle_env
           (firstn 8 (RawSample nine_bytes)) [Byte.x09] None
           [(three_bytes, None)] init eq_refl).
Defined.

Lemma record_reporting_loss_is_not_decoded_witness :
  printed (trace (snd (consume_loop idle_env 8
                         [(lossy_record, None); (nine_bytes, None)] init))) =
  [firstn 8 (RawSample nine_bytes)].
Proof.
  refine (proj1 (record_reporting_loss_is_not_decoded idle_env 8
                   lossy_record None [(nine_bytes, None)] init _ eq_refl)).
  discriminate.
Defined.

Lemma out_of_range_entries_skip_the_select_witness :
  attach_loop (with_cancel (Some 0%nat) idle_env)
    [("kfree_skb_list"%string, 7); ("skb_put"%string, 0)] 0 init =
  (Next 2, init).
Proof.
  refine (out_of_range_entries_skip_the_select
            (with_cancel (Some 0%nat) idle_env)
            [("kfree_skb_list"%string, 7); ("skb_put"%string, 0)] 0 init
            eq_refl _ _).
  - discriminate.
  - vm_compute. discriminate.
Defined.

Lemma startup_failure_exits_before_any_probe_witness :
  fst (run_main 8 no_btf_run) = Exited 1 /\
  filter is_config (snd (run_main 8 no_btf_run)) = [].
Proof.
  destruct (startup_failure_exits_before_any_probe 8 no_btf_run)
    as (H1 & _ & H3 & _).
  - right. right. left. exists (ErrNew "no BTF"). reflexivity.
  - split; [exact H1|exact H3].
Defined.

Lemma reader_failure_leaves_probes_attached_witness :
  fst (run_main 8 reader_failure_run) = Exited 1 /\
  released (snd (run_main 8 reader_failure_run)) = [].
Proof.
  destruct (reader_failure_leaves_probes_attached 8 reader_failure_run
              skewed_catalog (ErrNew "cannot create perf event"))
    as (H1 & H2).
  - repeat split; reflexivity.
  - reflexivity.
  - reflexivity.
  - vm_compute. discriminate.
  - reflexivity.
  - split; [rewrite H1; reflexivity|exact H2].
Defined.

Lemma cancelled_attach_returns_before_the_reader_witness :
  filter is_after_attach (snd (run_main 8 cancelled_run)) = [].
Proof.
  refine (proj1 (cancelled_attach_returns_before_the_reader 8
                   cancelled_run _)).
  simpl. repeat (first [left; reflexivity | right]).
Defined.

Lemma progress_advances_once_per_attempt_witness :
  List.length (filter is_bar_increment (snd (run_main 8 traced_run))) =
  List.length (attempts (snd (run_main 8 traced_run))).
Proof.
  exact (proj1 (progress_advances_once_per_attempt 8 traced_run
                  skewed_catalog eq_refl)).
Defined.

Lemma summary_line_reports_the_ignored_entries_witness :
  attempts (snd (run_main 8 traced_run)) = wanted skewed_catalog.
Proof.
  refine (proj2 (proj2 (summary_line_reports_the_ignored_entries 8
                          traced_run skewed_catalog 2 eq_refl _ _))).
  - vm_compute. discriminate.
  - simpl. repeat (first [left; reflexivity | right]).
Defined.

Lemma events_are_read_after_the_header_witness :
  In APrintHeader (firstn 19 (snd (run_main 8 traced_run))).
Proof.
  apply (proj1 (events_are_read_after_the_header 8 traced_run)
           (firstn 19 (snd (run_main 8 traced_run)))
           (ARead nine_bytes None)
           (skipn 20 (snd (run_main 8 traced_run))));
    reflexivity.
Defined.

(** ** The process from its first instruction *)

Lemma run_process_calls (event_size : nat) (po : parse_outcome) (env : Env)
    (a : action) :
  In a (snd (run_process event_size po env)) ->
  po = parse_ok /\
  run_process event_size po env = run_main event_size env.
Proof. destruct po; simpl; intro H; [auto|contradiction|contradiction]. Qed.

(** X7.  When the goroutine of [main] logs a fatal message (one of the
    [log.Fatalf] calls of lines 59, 65, 77, 81, 87, 101, 145 and 158),
    the process exits with status 1, a fatal message is the last call of
    [main], and none of its deferred calls has run: neither a probe, nor
    the loaded objects, nor the reader is closed by the program on that
    path. *)
Theorem fatal_message_of_main_ends_the_run
    (event_size : nat) (po : parse_outcome) (env : Env) (m : fatal_msg) :
  In (AFatal m) (snd (run_process event_size po env)) ->
  fst (run_process event_size po env) = Exited 1 /\
  deferred_run (snd (run_process event_size po env)) = [] /\
  exists pre m',
    snd (run_process event_size po env) = pre ++ [AFatal m'].
Proof.
  intro Hin.
  destruct (run_process_calls _ _ _ _ Hin) as [_ E]. rewrite E in *.
  destruct (run_main_exit_1 event_size env) as [Hiff Hex].
  assert (H1 : fst (run_main event_size env) = Exited 1).
  { apply Hiff. apply existsb_exists. exists (AFatal m). auto. }
  destruct (Hex H1) as [Hd Hlast]. auto.
Qed.

(** X9.  When the process exits with status 0, either [flag.Parse]
    ended it for [-h], before any call of [main], or [main] returned:
    then the deferred calls are the last calls of [main] and run in the
    reverse order of their [defer] statements: [rd.Close()] first if the
    reader was created, then [kp.Close()] for each attached probe from
    the last attached to the first, then [objs.Close()], then
    [stop()]. *)
Theorem returning_main_runs_deferred_calls_last_in_first_out
    (event_size : nat) (po : parse_outcome) (env : Env) :
  fst (run_process event_size po env) = Exited 0 ->
  (po = parse_help /\ snd (run_process event_size po env) = []) \/
  (po = parse_ok /\
   deferred_run (snd (run_process event_size po env)) =
     (if existsb is_new_reader (snd (run_process event_size po env))
      then [d_rd_Close] else [])
     ++ map d_kp_Close
          (rev (attached (snd (run_process event_size po env))))
     ++ [d_objs_Close; d_stop] /\
   exists body,
     snd (run_process event_size po env) =
       body
       ++ map ARun (deferred_run (snd (run_process event_size po env))) /\
     deferred_run body = []).
Proof.
  destruct po; simpl; intro H.
  - right. split; [reflexivity|].
    exact (run_main_exit_0_deferred event_size env H).
  - left. auto.
  - discriminate.
Qed.

(** X10.  The process exits with status 0 only in three ways: [-h] on
    the command line, the [select] of the attach loop finding the
    context cancelled, or a read returning the closed error. *)
Theorem normal_exit_only_by_help_cancellation_or_closed_read
    (event_size : nat) (po : parse_outcome) (env : Env) :
  fst (run_process event_size po env) = Exited 0 ->
  po = parse_help \/
  In (ASelectAttach true) (snd (run_process event_size po env)) \/
  exists r e,
    In (ARead r (Some e)) (snd (run_process event_size po env)) /\
    perf_IsClosed e = true.
Proof.
  destruct po; simpl; intro H.
  - right. exact (proj1 (run_main_exit_0 event_size env) H).
  - left. reflexivity.
  - discriminate.
Qed.

Lemma fatal_message_of_main_ends_the_run_witness :
  fst (run_process 8 parse_ok reader_failure_run) = Exited 1 /\
  deferred_run (snd (run_process 8 parse_ok reader_failure_run)) = [].
Proof.
  destruct (fatal_message_of_main_ends_the_run 8 parse_ok reader_failure_run
              (FatalNewReader (ErrNew "cannot create perf event")))
    as (H1 & H2 & _).
  - simpl. repeat (first [left; reflexivity | right]).
  - split; [exact H1|exact H2].
Defined.

Lemma returning_main_runs_deferred_calls_last_in_first_out_witness :
  deferred_run (snd (run_process 8 parse_ok traced_run)) =
  [d_rd_Close; d_kp_Close "ip_rcv"; d_objs_Close; d_stop].
Proof.
  destruct (returning_main_runs_deferred_calls_last_in_first_out 8 parse_ok
              traced_run eq_refl) as [[F _]|(_ & H & _)].
  - discriminate F.
  - exact H.
Defined.

Lemma normal_exit_only_by_help_cancellation_or_closed_read_witness :
  parse_ok = parse_help \/
  In (ASelectAttach true) (snd (run_process 8 parse_ok traced_run)) \/
  exists r e,
    In (ARead r (Some e)) (snd (run_process 8 parse_ok traced_run)) /\
    perf_IsClosed e = true.
Proof.
  exact (normal_exit_only_by_help_cancellation_or_closed_read 8 parse_ok
           traced_run eq_refl).
Defined.
